(** * libtiled ObjectGroup: the name sort engine and the collection operations

    A shallow embedding of [src/libtiled/objectgroup.cpp].

    - A [MapObject *] is an address (a [Z]); a [QVector<MapObject *>] or
      [QList<MapObject *>] is a [list] of addresses.
    - C++ [int] values are modelled as [Z].  All index arithmetic of the
      file stays far inside the 32-bit range for any vector that fits in
      memory, except the counter of a loop that never ends.
    - A [qreal] is a [double]: an IEEE 754 binary64 number with the
      operations of the Standard Library's [SpecFloat], which round to
      nearest even as the hardware does.
    - A fragment of the program yields an [outcome]: it returns ([Done]),
      it reads or writes a container out of range or fails a [Q_ASSERT]
      ([Fault]), or the step budget given to it ran out ([OutOfFuel]).
      Counted [for] loops are structural; [while] loops and the recursion
      of [introSort] take fuel. *)

From stdpp Require Import gmap strings list fin_maps.
From Stdlib Require Import ZArith Lia Ascii SpecFloat.

Local Open Scope Z_scope.

(** ** Outcomes *)

Inductive outcome (A : Type) : Type :=
| Done (a : A)
| Fault
| OutOfFuel.
Arguments Done {A} a.
Arguments Fault {A}.
Arguments OutOfFuel {A}.

Global Instance outcome_ret : MRet outcome := @Done.
Global Instance outcome_bind : MBind outcome := λ A B f m,
  match m with
  | Done a => f a
  | Fault => Fault
  | OutOfFuel => OutOfFuel
  end.

Definition returns {A} (m : outcome A) : Prop := ∃ a, m = Done a.

(** ** Handles and names *)

Abbreviation ptr := Z (only parsing).

(** [QChar::toCaseFolded] on the ASCII letters. *)
Definition foldCase (c : ascii) : N :=
  let n := N_of_ascii c in
  if ((65 <=? n) && (n <=? 90))%N then (n + 32)%N else n.

Fixpoint foldedCodes (s : string) : list N :=
  match s with
  | EmptyString => []
  | String c s' => foldCase c :: foldedCodes s'
  end.

Fixpoint compareCodes (a b : list N) : Z :=
  match a, b with
  | [], [] => 0
  | [], _ :: _ => -1
  | _ :: _, [] => 1
  | x :: a', y :: b' =>
      if (x <? y)%N then -1
      else if (y <? x)%N then 1
      else compareCodes a' b'
  end.

(** [QString::compare(a, b, Qt::CaseInsensitive)]: negative, zero or
    positive; the program only looks at the sign. *)
Definition QString_compare (a b : string) : Z :=
  compareCodes (foldedCodes a) (foldedCodes b).

(** ** Random access containers *)

Definition inRange (vec : list ptr) (i : Z) : bool :=
  (0 <=? i) && (i <? Z.of_nat (length vec)).

(** [vec[i]] as an rvalue. *)
Definition vget (vec : list ptr) (i : Z) : outcome ptr :=
  if inRange vec i then
    match vec !! Z.to_nat i with
    | Some x => Done x
    | None => Fault
    end
  else Fault.

(** [vec[i] = x]. *)
Definition vset (vec : list ptr) (i : Z) (x : ptr) : outcome (list ptr) :=
  if inRange vec i then Done (<[Z.to_nat i := x]> vec) else Fault.

(** [vec.remove(i)]. *)
Definition vremove (vec : list ptr) (i : Z) : outcome (list ptr) :=
  if inRange vec i then Done (delete (Z.to_nat i) vec) else Fault.

(** [vec.insert(i, x)], for [0 <= i <= size]. *)
Definition vinsert (vec : list ptr) (i : Z) (x : ptr) : outcome (list ptr) :=
  if (0 <=? i) && (i <=? Z.of_nat (length vec)) then
    Done (take (Z.to_nat i) vec ++ x :: drop (Z.to_nat i) vec)
  else Fault.

Definition size (vec : list ptr) : Z := Z.of_nat (length vec).

(** ** The name sort engine *)

Section SortEngine.

(** [name p] is [p->name()]; the sort never writes an object. *)
Context (name : ptr → string).

(** Modelled from the spec: [MapObject::equals] is not part of the
    file; the spec has it as equality of entity identity. *)
Definition equals (a b : ptr) : bool := a =? b.

(** *** siftDown *)

Fixpoint siftDown_loop (fuel : nat) (vec : list ptr) (root siftEnd : Z)
  : outcome (list ptr) :=
  match fuel with
  | O => OutOfFuel
  | S fuel =>
      if root * 2 + 1 <=? siftEnd then
        let child := root * 2 + 1 in
        let swap := root in
        a ← vget vec swap;
        c ← vget vec child;
        (* the pointers themselves are compared *)
        if a <? c then
          (* swap = child; nothing else happens in this iteration *)
          siftDown_loop fuel vec root siftEnd
        else
          second ← (if child + 1 <=? siftEnd
                    then c' ← vget vec (child + 1); Done (a <? c')
                    else Done false);
          if (second : bool) then
            (* swap = child + 1; nothing else happens *)
            siftDown_loop fuel vec root siftEnd
          else if swap =? root then Done vec
          else
            temp ← vget vec root;
            s ← vget vec swap;
            vec ← vset vec root s;
            vec ← vset vec swap temp;
            siftDown_loop fuel vec swap siftEnd
      else Done vec
  end.

Definition siftDown (fuel : nat) (vec : list ptr) (siftBegin siftEnd : Z)
  : outcome (list ptr) :=
  siftDown_loop fuel vec siftBegin siftEnd.

(** *** heapify *)

Fixpoint heapify_loop (fuel : nat) (vec : list ptr) (begin end_ start : Z)
  : outcome (list ptr) :=
  match fuel with
  | O => OutOfFuel
  | S fuel =>
      if start >=? begin then
        vec ← siftDown fuel vec begin (end_ - 1);
        heapify_loop fuel vec begin end_ (start - 1)
      else Done vec
  end.

(** [(end - 2) / 2] is an [int] division: it truncates toward zero. *)
Definition heapify (fuel : nat) (vec : list ptr) (begin end_ : Z)
  : outcome (list ptr) :=
  let start := begin + Z.quot (end_ - 2) 2 in
  heapify_loop fuel vec begin end_ start.

(** *** heapSort *)

Fixpoint heapSort_loop (fuel : nat) (vec : list ptr) (begin end_ last : Z)
  : outcome (list ptr) :=
  match fuel with
  | O => OutOfFuel
  | S fuel =>
      if last >? 0 then
        temp ← vget vec begin;
        l ← vget vec last;
        vec ← vset vec begin l;
        vec ← vset vec last temp;
        let end_ := end_ - 1 in
        vec ← siftDown fuel vec begin end_;
        heapSort_loop fuel vec begin end_ last
      else Done vec
  end.

Definition heapSort (fuel : nat) (vec : list ptr) (begin end_ : Z)
  : outcome (list ptr) :=
  vec ← heapify fuel vec begin end_;
  let last := end_ - 1 in
  heapSort_loop fuel vec begin end_ last.

(** *** reorder *)

(** The first loop: find the pivot in [[i, end)], remove it and
    decrement [end]. [n] counts the remaining iterations. *)
Fixpoint reorder_excise (n : nat) (vec : list ptr) (pivot : ptr) (i end_ : Z)
  : outcome (list ptr * Z) :=
  match n with
  | O => Done (vec, end_)
  | S n =>
      x ← vget vec i;
      if equals x pivot then
        vec ← vremove vec i;
        Done (vec, end_ - 1)
      else reorder_excise n vec pivot (i + 1) end_
  end.

(** The second loop: [newVec.push_front(vec[i])] for [i] below [begin]. *)
Fixpoint reorder_prefix (n : nat) (vec newVec : list ptr) (i : Z)
  : outcome (list ptr) :=
  match n with
  | O => Done newVec
  | S n =>
      x ← vget vec i;
      reorder_prefix n vec (x :: newVec) (i + 1)
  end.

(** The third loop: the scan of [[begin, end)]. *)
Fixpoint reorder_scan (n : nat) (vec newVec : list ptr) (checkString : string)
    (begin i pivotLocation : Z) : outcome (list ptr * Z) :=
  match n with
  | O => Done (newVec, pivotLocation)
  | S n =>
      x ← vget vec i;
      let readStr := name x in
      if QString_compare checkString readStr >=? 0 then
        newVec ← vinsert newVec begin x;
        reorder_scan n vec newVec checkString begin (i + 1) (pivotLocation + 1)
      else
        reorder_scan n vec (newVec ++ [x]) checkString begin (i + 1) pivotLocation
  end.

(** The fourth loop: append [[end, vec.size())]. *)
Fixpoint reorder_suffix (n : nat) (vec newVec : list ptr) (i : Z)
  : outcome (list ptr) :=
  match n with
  | O => Done newVec
  | S n =>
      x ← vget vec i;
      reorder_suffix n vec (newVec ++ [x]) (i + 1)
  end.

Definition reorder (vec : list ptr) (pivot : ptr) (begin end_ : Z)
  : outcome (list ptr * Z) :=
  let pivotLocation := begin in
  let checkString := name pivot in
  let newVec := [pivot] in
  '(vec, end_) ← reorder_excise (Z.to_nat (end_ - begin)) vec pivot begin end_;
  newVec ← reorder_prefix (Z.to_nat begin) vec newVec 0;
  '(newVec, pivotLocation) ←
    reorder_scan (Z.to_nat (end_ - begin)) vec newVec checkString
                 begin begin pivotLocation;
  newVec ← reorder_suffix (Z.to_nat (size vec - end_)) vec newVec end_;
  Done (newVec, pivotLocation).

(** *** partition *)

(** The median-of-three step of [partition]: the six branches up to,
    and not including, their [return reorder(vec, pivot, begin, end)].
    It yields the rearranged vector and the chosen pivot. *)
Definition partition_select (vec : list ptr) (begin end_ : Z)
  : outcome (list ptr * ptr) :=
  first ← vget vec begin;
  last ← vget vec (end_ - 1);
  middle ← vget vec (begin + Z.quot (end_ - begin) 2);
  let start := name first in
  let midway := name middle in
  let finish := name last in
  let mid := begin + Z.quot (end_ - begin) 2 in
  if QString_compare start finish >=? 0 then
    if QString_compare start midway >=? 0 then
      if QString_compare midway finish >=? 0 then
        let temp := first in
        vec ← vset vec 0 last;
        vec ← vset vec (size vec - 1) temp;
        Done (vec, middle)
      else
        let temp1 := first in
        let temp2 := middle in
        vec ← vset vec 0 temp2;
        vec ← vset vec mid last;
        vec ← vset vec (size vec - 1) temp1;
        Done (vec, last)
    else
      let temp1 := first in
      let temp2 := middle in
      vec ← vset vec 0 last;
      vec ← vset vec mid temp1;
      vec ← vset vec (size vec - 1) temp2;
      Done (vec, first)
  else
    if QString_compare start midway <=? 0 then
      if QString_compare midway finish >=? 0 then
        let temp1 := middle in
        vec ← vset vec mid last;
        vec ← vset vec (size vec - 1) temp1;
        Done (vec, last)
      else Done (vec, middle)
    else
      let temp1 := first in
      vec ← vset vec 0 middle;
      vec ← vset vec mid temp1;
      Done (vec, first).

Definition partition (vec : list ptr) (begin end_ : Z)
  : outcome (list ptr * Z) :=
  '(vec, pivot) ← partition_select vec begin end_;
  reorder vec pivot begin end_.

(** *** introSort *)

Fixpoint introSort (fuel : nat) (vec : list ptr) (maxDepth begin end_ : Z)
  : outcome (list ptr) :=
  match fuel with
  | O => OutOfFuel
  | S fuel =>
      let n := size vec in
      if n <=? 1 then Done vec
      else if n =? 2 then
        a ← vget vec 0;
        b ← vget vec 1;
        let first := name a in
        let second := name b in
        if QString_compare first second >=? 0 then
          let temp := a in
          vec ← vset vec 0 b;
          vec ← vset vec 1 temp;
          Done vec
        else Done vec
      else if maxDepth =? 0 then heapSort fuel vec begin end_
      else
        '(vec, p) ← partition vec begin end_;
        vec ← introSort fuel vec (maxDepth - 1) begin p;
        introSort fuel vec (maxDepth - 1) (p + 1) end_
  end.

(** *** sort *)

(** [maxDepth = (int) std::floor(std::log2(list.size())) * 2].  [sort]
    is only called by [insertObject], after the insertion, so the list
    is never empty. *)
Definition sort (fuel : nat) (list_ : list ptr) : outcome (list ptr) :=
  let maxDepth := Z.log2 (size list_) * 2 in
  let end_ := size list_ in
  let vec := list_ in
  introSort fuel vec maxDepth 0 end_.

End SortEngine.

(** ** QList operations used by the collection *)

(** [list.at(i)]. *)
Definition QList_at (l : list ptr) (i : Z) : outcome ptr := vget l i.

(** [list.insert(i, x)] of Qt 5's [QList]: if [i <= 0] the value is
    prepended to the list, if [i >= size()] it is appended; there is no
    index at which it fails (unlike [QVector::insert], which asserts). *)
Definition QList_insert (l : list ptr) (i : Z) (x : ptr) : outcome (list ptr) :=
  if i <=? 0 then Done (x :: l)
  else if i >=? size l then Done (l ++ [x])
  else Done (take (Z.to_nat i) l ++ x :: drop (Z.to_nat i) l).

(** [list.mid(pos, length)]: the [length] elements from [pos], or as many
    as there are. *)
Definition QList_mid (l : list ptr) (pos length_ : Z) : list ptr :=
  take (Z.to_nat length_) (drop (Z.to_nat pos) l).

(** [list.erase(list.begin() + first, list.begin() + last)]; both
    iterators must lie inside the list, in this order. *)
Definition QList_erase (l : list ptr) (first last : Z) : outcome (list ptr) :=
  if (0 <=? first) && (first <=? last) && (last <=? size l) then
    Done (take (Z.to_nat first) l ++ drop (Z.to_nat last) l)
  else Fault.

(** ** The collection *)

Inductive DrawOrder := UnknownOrder | TopDownOrder | IndexOrder.

(** The attributes of a [MapObject] that this file reads or writes; its
    geometry is left out. *)
Record MapObject := mkMapObject {
  mName : string;
  mId : Z;
  mObjectGroup : option ptr;
}.

Record ObjectGroup := mkObjectGroup {
  mLayerName : string;
  mX : Z;
  mY : Z;
  mWidth : Z;
  mHeight : Z;
  mMap : option ptr;
  mObjects : list ptr;
  mColor : option Z;
  mDrawOrder : DrawOrder;
}.

Inductive Layer :=
| ObjectGroupLayer (g : ObjectGroup)
| OtherLayer.

Record Map := mkMap { mNextObjectId : Z }.

(** The store: the live objects, layers and maps by address. *)
Record heap := mkHeap {
  objects : gmap Z MapObject;
  layers : gmap Z Layer;
  maps : gmap Z Map;
}.

Definition withObjects (g : ObjectGroup) (l : list ptr) : ObjectGroup :=
  mkObjectGroup (mLayerName g) (mX g) (mY g) (mWidth g) (mHeight g)
                (mMap g) l (mColor g) (mDrawOrder g).

Definition getObject (h : heap) (p : ptr) : outcome MapObject :=
  match objects h !! p with
  | Some o => Done o
  | None => Fault
  end.

Definition putObject (h : heap) (p : ptr) (o : MapObject) : heap :=
  mkHeap (<[p := o]> (objects h)) (layers h) (maps h).

Definition getGroup (h : heap) (p : ptr) : outcome ObjectGroup :=
  match layers h !! p with
  | Some (ObjectGroupLayer g) => Done g
  | _ => Fault
  end.

Definition putGroup (h : heap) (p : ptr) (g : ObjectGroup) : heap :=
  mkHeap (objects h) (<[p := ObjectGroupLayer g]> (layers h)) (maps h).

(** [object->name()], as the sort reads it. *)
Definition nameOf (h : heap) (p : ptr) : string :=
  match objects h !! p with
  | Some o => mName o
  | None => EmptyString
  end.

(** [object->setObjectGroup(group)]. *)
Definition setObjectGroup (h : heap) (object : ptr) (group : option ptr)
  : outcome heap :=
  o ← getObject h object;
  Done (putObject h object (mkMapObject (mName o) (mId o) group)).

(** [object->setId(id)]. *)
Definition setId (h : heap) (object : ptr) (id : Z) : outcome heap :=
  o ← getObject h object;
  Done (putObject h object (mkMapObject (mName o) id (mObjectGroup o))).

(** Modelled from the spec: [Map::takeNextObjectId] is not part of the
    file; the owning document hands out the next identity and advances. *)
Definition takeNextObjectId (h : heap) (m : ptr) : outcome (heap * Z) :=
  match maps h !! m with
  | Some d =>
      Done (mkHeap (objects h) (layers h)
                   (<[m := mkMap (mNextObjectId d + 1)]> (maps h)),
            mNextObjectId d)
  | None => Fault
  end.

(** [if (mMap && object->id() == 0) object->setId(mMap->takeNextObjectId());] *)
Definition assignId (h : heap) (this object : ptr) : outcome heap :=
  g ← getGroup h this;
  match mMap g with
  | Some m =>
      o ← getObject h object;
      if mId o =? 0 then
        '(h, id) ← takeNextObjectId h m;
        setId h object id
      else Done h
  | None => Done h
  end.

Definition addObject (h : heap) (this object : ptr) : outcome heap :=
  g ← getGroup h this;
  let h := putGroup h this (withObjects g (mObjects g ++ [object])) in
  h ← setObjectGroup h object (Some this);
  assignId h this object.

Definition insertObject (fuel : nat) (h : heap) (this : ptr) (index : Z)
    (object : ptr) : outcome heap :=
  g ← getGroup h this;
  l ← QList_insert (mObjects g) index object;
  l ← sort (nameOf h) fuel l;
  let h := putGroup h this (withObjects g l) in
  h ← setObjectGroup h object (Some this);
  assignId h this object.

(** The loop of [moveObjects]:
    [mObjects.insert(to + i, movingObjects.at(i))]. *)
Fixpoint moveObjects_loop (n : nat) (mObjects movingObjects : list ptr)
    (to i : Z) : outcome (list ptr) :=
  match n with
  | O => Done mObjects
  | S n =>
      x ← QList_at movingObjects i;
      mObjects ← QList_insert mObjects (to + i) x;
      moveObjects_loop n mObjects movingObjects to (i + 1)
  end.

(** [moveObjects] touches nothing but [mObjects]; this is its effect on
    that list. A failed [Q_ASSERT] is a [Fault]. *)
Definition moveObjects (mObjects : list ptr) (from to count : Z)
  : outcome (list ptr) :=
  if negb (count >=? 0) then Fault
  else if negb ((to <=? from) || (to >=? from + count)) then Fault
  else if (to =? from) || (to =? from + count) || (count =? 0) then Done mObjects
  else
    let movingObjects := QList_mid mObjects from count in
    mObjects ← QList_erase mObjects from (from + count);
    let to := if to >? from then to - count else to in
    moveObjects_loop (Z.to_nat count) mObjects movingObjects to 0.

(** Modelled from the spec: [MapObject::clone] is not part of the file;
    it yields a newly allocated entity with the attributes of the
    original, no owning collection and no assigned identity.  The new
    address is one that is not live. *)
Definition MapObject_clone (h : heap) (object : ptr) : outcome (heap * ptr) :=
  o ← getObject h object;
  let p := fresh (dom (objects h)) in
  Done (putObject h p (mkMapObject (mName o) 0 None), p).

(** [new ObjectGroup(name, x, y, width, height)]: the constructor of this
    file; the [Layer] base starts without a map and the colour invalid. *)
Definition ObjectGroup_new (h : heap) (name : string) (x y width height : Z)
  : heap * ptr :=
  let p := fresh (dom (layers h)) in
  (putGroup h p (mkObjectGroup name x y width height None [] None TopDownOrder), p).

(** [foreach (const MapObject *object, list) target->addObject(object->clone());] *)
Fixpoint addClones (h : heap) (target : ptr) (l : list ptr) : outcome heap :=
  match l with
  | [] => Done h
  | object :: l =>
      '(h, c) ← MapObject_clone h object;
      h ← addObject h target c;
      addClones h target l
  end.

Definition setColor (h : heap) (this : ptr) (color : option Z) : outcome heap :=
  g ← getGroup h this;
  Done (putGroup h this
          (mkObjectGroup (mLayerName g) (mX g) (mY g) (mWidth g) (mHeight g)
                         (mMap g) (mObjects g) color (mDrawOrder g))).

Definition setDrawOrder (h : heap) (this : ptr) (drawOrder : DrawOrder)
  : outcome heap :=
  g ← getGroup h this;
  Done (putGroup h this
          (mkObjectGroup (mLayerName g) (mX g) (mY g) (mWidth g) (mHeight g)
                         (mMap g) (mObjects g) (mColor g) drawOrder)).

(** [Layer::initializeClone] copies attributes of the base class that
    are not modelled here; then the objects are cloned in order. *)
Definition initializeClone (h : heap) (this clone : ptr) : outcome (heap * ptr) :=
  g ← getGroup h this;
  h ← addClones h clone (mObjects g);
  h ← setColor h clone (mColor g);
  h ← setDrawOrder h clone (mDrawOrder g);
  Done (h, clone).

Definition clone (h : heap) (this : ptr) : outcome (heap * ptr) :=
  g ← getGroup h this;
  let '(h, c) := ObjectGroup_new h (mLayerName g) (mX g) (mY g)
                                 (mWidth g) (mHeight g) in
  initializeClone h this c.

Definition canMergeWith (h : heap) (other : ptr) : outcome bool :=
  match layers h !! other with
  | Some (ObjectGroupLayer _) => Done true
  | Some OtherLayer => Done false
  | None => Fault
  end.

Definition mergedWith (h : heap) (this other : ptr) : outcome (heap * ptr) :=
  ok ← canMergeWith h other;
  if negb ok then Fault
  else
    '(h, merged) ← clone h this;
    og ← getGroup h other;
    h ← addClones h merged (mObjects og);
    Done (h, merged).

(** ** Vocabulary of the statements *)

(** The handles at positions [[begin, end)] of a vector. *)
Definition slice (vec : list ptr) (begin end_ : Z) : list ptr :=
  take (Z.to_nat (end_ - begin)) (drop (Z.to_nat begin) vec).

Section NameOrder.

Context (name : ptr → string).

(** The test of the scan in [reorder], [compare(pivot, x) >= 0]: the
    name of [x] does not exceed the name of the pivot. *)
Definition notAbove (pivot x : ptr) : Prop :=
  0 ≤ QString_compare (name pivot) (name x).

Global Instance notAbove_dec pivot x : Decision (notAbove pivot x) :=
  decide (0 ≤ QString_compare (name pivot) (name x)).

(** Case-insensitive name order on handles. *)
Definition nameLe (a b : ptr) : Prop :=
  QString_compare (name a) (name b) ≤ 0.

Global Instance nameLe_dec a b : Decision (nameLe a b) :=
  decide (QString_compare (name a) (name b) ≤ 0).

(** The reorder step as the specification words it (C5): prefix and
    suffix kept, the middle is the pivot, then the elements of the range
    whose name is greater-or-equal to the pivot's, then those whose name
    is less, one occurrence of the pivot being excised; the value
    returned is [begin] plus the number of greater-or-equal elements. *)
Definition reorder_as_claimed (vec : list ptr) (pivot : ptr) (begin end_ : Z)
    (out : list ptr) (ret : Z) : Prop :=
  ∃ rest ge lt,
    pivot :: rest ≡ₚ slice vec begin end_ ∧
    ge ≡ₚ filter (λ x, nameLe pivot x) rest ∧
    lt ≡ₚ filter (λ x, ¬ nameLe pivot x) rest ∧
    out = take (Z.to_nat begin) vec ++ pivot :: ge ++ lt
            ++ drop (Z.to_nat end_) vec ∧
    ret = begin + Z.of_nat (length ge).

End NameOrder.

(** A block move as the specification words it (C8): the [count]
    entities that stood from position [from] on stand together and in
    their own order somewhere in the result, and the other entities keep
    their order around them. *)
Definition moveObjects_as_claimed (mObjects : list ptr) (from count : Z)
    (out : list ptr) : Prop :=
  ∃ before after,
    out = before ++ slice mObjects from (from + count) ++ after ∧
    before ++ after
    = slice mObjects 0 from ++ slice mObjects (from + count) (size mObjects).

(** Names for the worked examples: the handle [1] is named [a], [2] is
    [b], and so on. *)
Definition exampleName (p : ptr) : string :=
  match p with
  | 1 => "a" | 2 => "b" | 3 => "c" | 4 => "d" | 5 => "e" | 6 => "f"
  | _ => EmptyString
  end.

(** Names that fall as the address rises: [6] is named [a], [5] is [b],
    and so on. *)
Definition fallingName (p : ptr) : string := exampleName (7 - p).

(** A sequence is in name order when no handle precedes one whose name is
    strictly smaller. *)
Definition sortedByName (name : ptr → string) (l : list ptr) : Prop :=
  ∀ i j x y, (i ≤ j)%nat → l !! i = Some x → l !! j = Some y → nameLe name x y.

(** A store for the worked examples: the collection at address 100 holds
    the objects [a] and [b], the collection at 101 holds [d]; the object
    [c] has no owner. *)
Definition exampleHeap : heap :=
  mkHeap
    (list_to_map
       [(1, mkMapObject "a" 1 (Some 100)); (2, mkMapObject "b" 2 (Some 100));
        (3, mkMapObject "c" 0 None); (4, mkMapObject "d" 3 (Some 101))])
    (list_to_map
       [(100, ObjectGroupLayer
                (mkObjectGroup "A" 0 0 10 10 None [1; 2] (Some 255) IndexOrder));
        (101, ObjectGroupLayer
                (mkObjectGroup "B" 0 0 10 10 None [4] None TopDownOrder))])
    ∅.

(** ** The rest of the collection *)

(** [list.indexOf(x)]: the first index that holds [x], or -1. *)
Fixpoint QList_indexOf_from (l : list ptr) (x : ptr) (i : Z) : Z :=
  match l with
  | [] => -1
  | y :: l => if y =? x then i else QList_indexOf_from l x (i + 1)
  end.

Definition QList_indexOf (l : list ptr) (x : ptr) : Z :=
  QList_indexOf_from l x 0.

(** [list.removeAt(i)]; an index out of range is ignored. *)
Definition QList_removeAt (l : list ptr) (i : Z) : list ptr :=
  if inRange l i then delete (Z.to_nat i) l else l.

(** [list.takeAt(i)]; the index must be in range. *)
Definition QList_takeAt (l : list ptr) (i : Z) : outcome (ptr * list ptr) :=
  x ← vget l i;
  Done (x, delete (Z.to_nat i) l).

Definition removeObject (h : heap) (this object : ptr) : outcome (heap * Z) :=
  g ← getGroup h this;
  let index := QList_indexOf (mObjects g) object in
  if index =? -1 then Fault
  else
    let h := putGroup h this (withObjects g (QList_removeAt (mObjects g) index)) in
    h ← setObjectGroup h object None;
    Done (h, index).

Definition removeObjectAt (h : heap) (this : ptr) (index : Z) : outcome heap :=
  g ← getGroup h this;
  '(object, l) ← QList_takeAt (mObjects g) index;
  let h := putGroup h this (withObjects g l) in
  setObjectGroup h object None.

Definition isEmpty (h : heap) (this : ptr) : outcome bool :=
  g ← getGroup h this;
  Done (bool_decide (mObjects g = [])).

(** *** Tileset references *)

(** A [Cell], declared outside the file: the tile it shows, or none, and
    its flip flags. *)
Record Cell := mkCell {
  tile : option ptr;
  cellFlags : Z;
}.

Section Tilesets.

(** The parts of [Tile] and [Tileset] that this file calls and that are
    declared outside it: [tile->tileset()] (which [tile->sharedTileset()]
    shares), [tile->id()] and [tileset->tileAt(id)]. *)
Context (tilesetOf : ptr → ptr) (idOf : ptr → Z) (tileAt : ptr → Z → option ptr).

(** [object->cell()], from the cells of the live objects. *)
Definition getCell (cells : gmap Z Cell) (object : ptr) : outcome Cell :=
  match cells !! object with
  | Some c => Done c
  | None => Fault
  end.

Fixpoint usedTilesets_loop (cells : gmap Z Cell) (mObjects : list ptr)
    (tilesets : gset Z) : outcome (gset Z) :=
  match mObjects with
  | [] => Done tilesets
  | object :: mObjects =>
      c ← getCell cells object;
      match tile c with
      | Some t => usedTilesets_loop cells mObjects ({[tilesetOf t]} ∪ tilesets)
      | None => usedTilesets_loop cells mObjects tilesets
      end
  end.

Definition usedTilesets (cells : gmap Z Cell) (mObjects : list ptr)
  : outcome (gset Z) :=
  usedTilesets_loop cells mObjects ∅.

Fixpoint referencesTileset (cells : gmap Z Cell) (mObjects : list ptr)
    (tileset : ptr) : outcome bool :=
  match mObjects with
  | [] => Done false
  | object :: mObjects =>
      c ← getCell cells object;
      match tile c with
      | Some t =>
          if tilesetOf t =? tileset then Done true
          else referencesTileset cells mObjects tileset
      | None => referencesTileset cells mObjects tileset
      end
  end.

Fixpoint replaceReferencesToTileset (cells : gmap Z Cell) (mObjects : list ptr)
    (oldTileset newTileset : ptr) : outcome (gmap Z Cell) :=
  match mObjects with
  | [] => Done cells
  | object :: mObjects =>
      c ← getCell cells object;
      match tile c with
      | Some t =>
          if tilesetOf t =? oldTileset then
            let cell := mkCell (tileAt newTileset (idOf t)) (cellFlags c) in
            replaceReferencesToTileset (<[object := cell]> cells) mObjects
                                       oldTileset newTileset
          else replaceReferencesToTileset cells mObjects oldTileset newTileset
      | None => replaceReferencesToTileset cells mObjects oldTileset newTileset
      end
  end.

(** A cell shows a tile of the given tileset. *)
Definition showsTileset (tileset : ptr) (c : Cell) : Prop :=
  ∃ t, tile c = Some t ∧ tilesetOf t = tileset.

End Tilesets.

(** *** The draw order codec *)

(** The [default:] label of the switch shares the [UnknownOrder] case. *)
Definition drawOrderToString (drawOrder : DrawOrder) : string :=
  match drawOrder with
  | UnknownOrder => "unknown"
  | TopDownOrder => "topdown"
  | IndexOrder => "index"
  end.

Definition drawOrderFromString (s : string) : DrawOrder :=
  if String.eqb s "topdown" then TopDownOrder
  else if String.eqb s "index" then IndexOrder
  else UnknownOrder.

(** Tiles for the worked examples: tile [t] belongs to tileset
    [t / 100] and has the identifier [t mod 100]; tileset [s] holds the
    tiles [100 s + id] for [id] below 10. *)
Definition exampleTilesetOf (t : ptr) : ptr := t / 100.
Definition exampleIdOf (t : ptr) : Z := t mod 100.
Definition exampleTileAt (s : ptr) (id : Z) : option ptr :=
  if (0 <=? id) && (id <? 10) then Some (100 * s + id) else None.

Definition exampleCells : gmap Z Cell :=
  list_to_map [(1, mkCell (Some 703) 0); (2, mkCell None 1);
               (3, mkCell (Some 801) 2)].

(** ** Geometry: offsetting the entities *)

(** [qreal] is [double], IEEE 754 binary64: 53 bits of precision,
    exponents below 1024, every operation rounded to nearest even. *)
Definition qreal : Type := spec_float.

Definition qreal_add (x y : qreal) : qreal := SFadd 53 1024 x y.
Definition qreal_sub (x y : qreal) : qreal := SFsub 53 1024 x y.
Definition qreal_div (x y : qreal) : qreal := SFdiv 53 1024 x y.
Definition qreal_lt (x y : qreal) : bool := SFltb x y.
Definition qreal_eq (x y : qreal) : bool := SFeqb x y.

(** The [double] nearest to [m * 2 ^ e]; [qreal_of_int] is the conversion
    of an [int] literal. *)
Definition qreal_of (m e : Z) : qreal := binary_normalize 53 1024 m e false.
Definition qreal_of_int (n : Z) : qreal := qreal_of n 0.

(** [std::fmod(x, y)]: the remainder of [x / y] with the quotient
    truncated towards zero, computed exactly; it has the sign of [x].
    The result is not a number when [x] is infinite or [y] is zero, and
    [x] itself when [y] is infinite. *)
Definition fmod (x y : qreal) : qreal :=
  match x, y with
  | S754_nan, _ | _, S754_nan => S754_nan
  | S754_infinity _, _ => S754_nan
  | _, S754_zero _ => S754_nan
  | S754_zero _, _ => x
  | _, S754_infinity _ => x
  | S754_finite sx mx ex, S754_finite _ my ey =>
      let e := Z.min ex ey in
      let r := Z.rem (Z.pos mx * 2 ^ (ex - e)) (Z.pos my * 2 ^ (ey - e)) in
      binary_normalize 53 1024 (if sx then - r else r) e sx
  end.

(** [QPointF] with its [operator+] and [operator-]. *)
Record QPointF := mkQPointF { QPointF_x : qreal; QPointF_y : qreal }.

Definition QPointF_plus (p q : QPointF) : QPointF :=
  mkQPointF (qreal_add (QPointF_x p) (QPointF_x q))
            (qreal_add (QPointF_y p) (QPointF_y q)).

Definition QPointF_minus (p q : QPointF) : QPointF :=
  mkQPointF (qreal_sub (QPointF_x p) (QPointF_x q))
            (qreal_sub (QPointF_y p) (QPointF_y q)).

Definition QPointF_setX (p : QPointF) (x : qreal) : QPointF :=
  mkQPointF x (QPointF_y p).

Definition QPointF_setY (p : QPointF) (y : qreal) : QPointF :=
  mkQPointF (QPointF_x p) y.

(** [QRectF]: a corner, a width and a height. *)
Record QRectF := mkQRectF {
  QRectF_xp : qreal;
  QRectF_yp : qreal;
  QRectF_w : qreal;
  QRectF_h : qreal
}.

Definition QRectF_left (r : QRectF) : qreal := QRectF_xp r.
Definition QRectF_top (r : QRectF) : qreal := QRectF_yp r.
Definition QRectF_width (r : QRectF) : qreal := QRectF_w r.
Definition QRectF_height (r : QRectF) : qreal := QRectF_h r.

(** [QRectF::center()] is [QPointF(xp + w/2, yp + h/2)]. *)
Definition QRectF_center (r : QRectF) : QPointF :=
  mkQPointF (qreal_add (QRectF_xp r) (qreal_div (QRectF_w r) (qreal_of_int 2)))
            (qreal_add (QRectF_yp r) (qreal_div (QRectF_h r) (qreal_of_int 2))).

(** [QRectF::contains(const QPointF &)]: the edges belong to the
    rectangle, and a rectangle without width or height contains nothing. *)
Definition QRectF_contains (r : QRectF) (p : QPointF) : bool :=
  let l := if qreal_lt (QRectF_w r) (qreal_of_int 0)
           then qreal_add (QRectF_xp r) (QRectF_w r) else QRectF_xp r in
  let r_ := if qreal_lt (QRectF_w r) (qreal_of_int 0)
            then QRectF_xp r else qreal_add (QRectF_xp r) (QRectF_w r) in
  if qreal_eq l r_ then false
  else if qreal_lt (QPointF_x p) l || qreal_lt r_ (QPointF_x p) then false
  else
    let t := if qreal_lt (QRectF_h r) (qreal_of_int 0)
             then qreal_add (QRectF_yp r) (QRectF_h r) else QRectF_yp r in
    let b := if qreal_lt (QRectF_h r) (qreal_of_int 0)
             then QRectF_yp r else qreal_add (QRectF_yp r) (QRectF_h r) in
    if qreal_eq t b then false
    else if qreal_lt (QPointF_y p) t || qreal_lt b (QPointF_y p) then false
    else true.

(** The value of [newCenter] when the body of the loop of
    [offsetObjects] reaches [setPosition]. *)
Definition offsetObjects_newCenter (objectCenter offset : QPointF)
    (bounds : QRectF) (wrapX wrapY : bool) : QPointF :=
  let newCenter := QPointF_plus objectCenter offset in
  let newCenter :=
    if wrapX && qreal_lt (qreal_of_int 0) (QRectF_width bounds) then
      let nx := fmod (qreal_sub (QPointF_x newCenter) (QRectF_left bounds))
                     (QRectF_width bounds) in
      QPointF_setX newCenter
        (qreal_add (QRectF_left bounds)
           (if qreal_lt nx (qreal_of_int 0)
            then qreal_add (QRectF_width bounds) nx else nx))
    else newCenter in
  let newCenter :=
    if wrapY && qreal_lt (qreal_of_int 0) (QRectF_height bounds) then
      let ny := fmod (qreal_sub (QPointF_y newCenter) (QRectF_top bounds))
                     (QRectF_height bounds) in
      QPointF_setY newCenter
        (qreal_add (QRectF_top bounds)
           (if qreal_lt ny (qreal_of_int 0)
            then qreal_add (QRectF_height bounds) ny else ny))
    else newCenter in
  newCenter.

Section OffsetObjects.

(** [MapObject::bounds()] is not part of the file: [objectBounds object pos]
    stands for the bounding rectangle of the entity [object] while its
    position is [pos].  The positions of the entities ([position()],
    [setPosition()]) are kept in a store of their own. *)
Context (objectBounds : ptr → QPointF → QRectF).

(** The body of the [foreach] loop, for one entity. *)
Definition offsetObjects_body (positions : gmap Z QPointF) (object : ptr)
    (offset : QPointF) (bounds : QRectF) (wrapX wrapY : bool)
  : outcome (gmap Z QPointF) :=
  match positions !! object with
  | None => Fault
  | Some pos =>
      let objectCenter := QRectF_center (objectBounds object pos) in
      if negb (QRectF_contains bounds objectCenter) then Done positions
      else
        let newCenter :=
          offsetObjects_newCenter objectCenter offset bounds wrapX wrapY in
        Done (<[object := QPointF_plus pos
                            (QPointF_minus newCenter objectCenter)]> positions)
  end.

Fixpoint offsetObjects (positions : gmap Z QPointF) (mObjects : list ptr)
    (offset : QPointF) (bounds : QRectF) (wrapX wrapY : bool)
  : outcome (gmap Z QPointF) :=
  match mObjects with
  | [] => Done positions
  | object :: rest =>
      positions ← offsetObjects_body positions object offset bounds wrapX wrapY;
      offsetObjects positions rest offset bounds wrapX wrapY
  end.

End OffsetObjects.

(** Geometry for the worked examples: the point [(x, y)] and the
    rectangle [[x, y, w, h]] with whole coordinates, and entities that
    are squares of side 2 placed at their position. *)
Definition examplePoint (x y : Z) : QPointF :=
  mkQPointF (qreal_of_int x) (qreal_of_int y).

Definition exampleRect (x y w h : Z) : QRectF :=
  mkQRectF (qreal_of_int x) (qreal_of_int y) (qreal_of_int w) (qreal_of_int h).

Definition exampleBounds (object : ptr) (pos : QPointF) : QRectF :=
  mkQRectF (QPointF_x pos) (QPointF_y pos) (qreal_of_int 2) (qreal_of_int 2).

(** * Properties *)

(** ** Outcomes *)

Lemma bind_Done {A B} (m : outcome A) (f : A → outcome B) b :
  m ≫= f = Done b → ∃ a, m = Done a ∧ f a = Done b.
Proof. destruct m as [a| |]; simpl; intros H; [eauto | discriminate..]. Qed.

Lemma not_returns_bind {A B} (m : outcome A) (f : A → outcome B) :
  (∀ a, m = Done a → ¬ returns (f a)) → ¬ returns (m ≫= f).
Proof.
  intros Hf [b Hb]. apply bind_Done in Hb as (a & Ha & Hfa).
  apply (Hf a Ha). by exists b.
Qed.

Lemma not_returns_Fault {A} : ¬ returns (@Fault A).
Proof. by intros [a Ha]. Qed.

Lemma not_returns_OutOfFuel {A} : ¬ returns (@OutOfFuel A).
Proof. by intros [a Ha]. Qed.

(** Split an equation [m ≫= f = Done b] into its two steps. *)
Ltac bind_inv H :=
  let a := fresh "r" in
  let Ha := fresh "Hr" in
  apply bind_Done in H as (a & Ha & H).

(** Boolean comparisons of sizes. *)
Ltac zbool :=
  first [ lia
        | apply Z.leb_le; lia | apply Z.leb_gt; lia
        | apply Z.ltb_lt; lia | apply Z.ltb_ge; lia
        | apply Z.geb_le; lia
        | rewrite Z.gtb_ltb; apply Z.ltb_lt; lia
        | rewrite Z.gtb_ltb; apply Z.ltb_ge; lia
        | apply Z.eqb_eq; lia | apply Z.eqb_neq; lia ].

(** ** Container accesses *)

Lemma vget_Done vec i x :
  vget vec i = Done x ↔ 0 ≤ i < size vec ∧ vec !! Z.to_nat i = Some x.
Proof.
  unfold vget, inRange, size. split.
  - destruct (0 <=? i) eqn:E1; [|done].
    destruct (i <? Z.of_nat (length vec)) eqn:E2; [|done]. simpl.
    destruct (vec !! Z.to_nat i) eqn:E3; [|done].
    intros [= ->]. split; [lia | done].
  - intros [[H1 H2] H3].
    apply Z.leb_le in H1. apply Z.ltb_lt in H2. by rewrite H1, H2, H3.
Qed.

Lemma vset_Done vec i x vec' :
  vset vec i x = Done vec' ↔ 0 ≤ i < size vec ∧ vec' = <[Z.to_nat i := x]> vec.
Proof.
  unfold vset, inRange, size. split.
  - destruct (0 <=? i) eqn:E1; [|done].
    destruct (i <? Z.of_nat (length vec)) eqn:E2; [|done]. simpl.
    intros [= <-]. split; [lia | done].
  - intros [[H1 H2] ->].
    apply Z.leb_le in H1. apply Z.ltb_lt in H2. by rewrite H1, H2.
Qed.

Lemma vset_length vec i x vec' :
  vset vec i x = Done vec' → length vec' = length vec.
Proof. intros [_ ->]%vset_Done. apply length_insert. Qed.

Lemma vremove_Done vec i vec' :
  vremove vec i = Done vec' ↔ 0 ≤ i < size vec ∧ vec' = delete (Z.to_nat i) vec.
Proof.
  unfold vremove, inRange, size. split.
  - destruct (0 <=? i) eqn:E1; [|done].
    destruct (i <? Z.of_nat (length vec)) eqn:E2; [|done]. simpl.
    intros [= <-]. split; [lia | done].
  - intros [[H1 H2] ->].
    apply Z.leb_le in H1. apply Z.ltb_lt in H2. by rewrite H1, H2.
Qed.

Lemma vinsert_Done vec i x vec' :
  vinsert vec i x = Done vec' ↔
  0 ≤ i ≤ size vec ∧ vec' = take (Z.to_nat i) vec ++ x :: drop (Z.to_nat i) vec.
Proof.
  unfold vinsert, size. split.
  - destruct (0 <=? i) eqn:E1; [|done].
    destruct (i <=? Z.of_nat (length vec)) eqn:E2; [|done]. simpl.
    intros [= <-]. split; [lia | done].
  - intros [[H1 H2] ->].
    apply Z.leb_le in H1. apply Z.leb_le in H2. by rewrite H1, H2.
Qed.

Lemma vinsert_length vec i x vec' :
  vinsert vec i x = Done vec' → length vec' = S (length vec).
Proof.
  intros [_ ->]%vinsert_Done.
  rewrite length_app. simpl. rewrite length_take, length_drop. lia.
Qed.

(** [QList::insert] agrees with the split at [i] wherever [i] is an
    index of the list or its size; outside it prepends or appends. *)
Lemma QList_insert_in_range l i x :
  0 ≤ i ≤ size l →
  QList_insert l i x = Done (take (Z.to_nat i) l ++ x :: drop (Z.to_nat i) l).
Proof.
  unfold QList_insert, size. intros Hi.
  destruct (i <=? 0) eqn:E1.
  - apply Z.leb_le in E1. assert (i = 0) as -> by lia. done.
  - destruct (i >=? Z.of_nat (length l)) eqn:E2; [|done].
    rewrite Z.geb_leb in E2. apply Z.leb_le in E2.
    assert (Z.to_nat i = length l) as -> by lia.
    by rewrite take_ge, drop_ge by lia.
Qed.

Lemma QList_insert_below l i x : i ≤ 0 → QList_insert l i x = Done (x :: l).
Proof.
  unfold QList_insert. intros Hi.
  by assert ((i <=? 0) = true) as -> by (apply Z.leb_le; lia).
Qed.

Lemma QList_insert_above l i x :
  size l ≤ i → QList_insert l i x = Done (l ++ [x]).
Proof.
  unfold QList_insert, size. intros Hi.
  destruct (i <=? 0) eqn:E1.
  - apply Z.leb_le in E1. destruct l; [done|]. simpl length in Hi. lia.
  - by assert ((i >=? Z.of_nat (length l)) = true) as ->
      by (rewrite Z.geb_leb; apply Z.leb_le; lia).
Qed.

Lemma QList_insert_returns l i x : ∃ l', QList_insert l i x = Done l'.
Proof.
  unfold QList_insert.
  destruct (i <=? 0); [by eexists|]. destruct (i >=? size l); by eexists.
Qed.

Lemma QList_insert_Permutation l i x l' :
  QList_insert l i x = Done l' → l' ≡ₚ x :: l.
Proof.
  unfold QList_insert.
  destruct (i <=? 0); [by intros [= <-]|].
  destruct (i >=? size l); intros [= <-].
  - by rewrite Permutation_app_comm.
  - rewrite <- Permutation_middle. by rewrite take_drop.
Qed.

Lemma QList_insert_length l i x l' :
  QList_insert l i x = Done l' → length l' = S (length l).
Proof. by intros ->%QList_insert_Permutation. Qed.

(** ** The heap fallback *)

(** [siftDown] never gets to its exchange: whenever it returns, the
    vector is the one it was given. *)
Lemma siftDown_loop_unchanged fuel vec root siftEnd vec' :
  siftDown_loop fuel vec root siftEnd = Done vec' → vec' = vec.
Proof.
  revert vec root siftEnd vec'.
  induction fuel as [|fuel IH]; intros vec root siftEnd vec'; simpl; [done|].
  destruct (root * 2 + 1 <=? siftEnd); [|by intros [= ->]].
  intros H. bind_inv H. bind_inv H.
  destruct (r <? r0).
  - by apply IH in H.
  - bind_inv H. destruct r1.
    + by apply IH in H.
    + rewrite Z.eqb_refl in H. by injection H as ->.
Qed.

Lemma siftDown_unchanged fuel vec siftBegin siftEnd vec' :
  siftDown fuel vec siftBegin siftEnd = Done vec' → vec' = vec.
Proof. apply siftDown_loop_unchanged. Qed.

Lemma heapify_loop_unchanged fuel vec begin end_ start vec' :
  heapify_loop fuel vec begin end_ start = Done vec' → vec' = vec.
Proof.
  revert vec start vec'.
  induction fuel as [|fuel IH]; intros vec start vec'; simpl; [done|].
  destruct (start >=? begin); [|by intros [= ->]].
  intros H. bind_inv H. apply siftDown_unchanged in Hr as ->. by apply IH in H.
Qed.

Lemma heapify_unchanged fuel vec begin end_ vec' :
  heapify fuel vec begin end_ = Done vec' → vec' = vec.
Proof. apply heapify_loop_unchanged. Qed.

(** [last] is never updated, so the loop of [heapSort] cannot leave once
    it was entered. *)
Lemma heapSort_loop_never_returns fuel vec begin end_ last :
  0 < last → ¬ returns (heapSort_loop fuel vec begin end_ last).
Proof.
  intros Hlast. revert vec end_.
  induction fuel as [|fuel IH]; intros vec end_; simpl.
  - apply not_returns_OutOfFuel.
  - assert ((last >? 0) = true) as -> by lia.
    do 5 (apply not_returns_bind; intros ? _).
    apply IH.
Qed.

Lemma heapSort_never_returns fuel vec begin end_ :
  2 ≤ end_ → ¬ returns (heapSort fuel vec begin end_).
Proof.
  intros Hend. unfold heapSort.
  apply not_returns_bind; intros vec' _.
  apply heapSort_loop_never_returns. lia.
Qed.

Lemma heapSort_unchanged fuel vec begin end_ vec' :
  heapSort fuel vec begin end_ = Done vec' → vec' = vec.
Proof.
  unfold heapSort. intros H. bind_inv H.
  apply heapify_unchanged in Hr as ->.
  destruct (Z.lt_ge_cases 0 (end_ - 1)) as [Hlt|Hge].
  - exfalso. apply (heapSort_loop_never_returns fuel vec begin end_ _ Hlt).
    by exists vec'.
  - destruct fuel as [|fuel]; simpl in H; [done|].
    assert ((end_ - 1 >? 0) = false) as Hf by lia.
    rewrite Hf in H. by injection H as ->.
Qed.

(** ** Sizes through [reorder], [partition] and [introSort] *)

Section SortEngineFacts.

Context (name : ptr → string).

Lemma reorder_excise_length n vec pivot i end_ vec' end' :
  reorder_excise n vec pivot i end_ = Done (vec', end') →
  (vec' = vec ∧ end' = end_) ∨
  (S (length vec') = length vec ∧ end' = end_ - 1).
Proof.
  revert i. induction n as [|n IH]; intros i; simpl.
  - intros [= <- <-]. by left.
  - intros H. bind_inv H. destruct (equals r pivot).
    + bind_inv H. injection H as <- <-. right.
      apply vremove_Done in Hr0 as [Hi ->]. split; [|done].
      unfold size in Hi. rewrite length_delete; [lia|].
      apply lookup_lt_is_Some. lia.
    + by apply IH in H.
Qed.

Lemma reorder_prefix_length n vec newVec i newVec' :
  reorder_prefix n vec newVec i = Done newVec' →
  length newVec' = (n + length newVec)%nat.
Proof.
  revert newVec i. induction n as [|n IH]; intros newVec i; simpl.
  - by intros [= <-].
  - intros H. bind_inv H. apply IH in H. simpl in H. lia.
Qed.

Lemma reorder_scan_length n vec newVec checkString begin i p newVec' p' :
  reorder_scan name n vec newVec checkString begin i p = Done (newVec', p') →
  length newVec' = (n + length newVec)%nat.
Proof.
  revert newVec i p. induction n as [|n IH]; intros newVec i p; simpl.
  - by intros [= <- _].
  - intros H. bind_inv H.
    destruct (QString_compare checkString (name r) >=? 0).
    + bind_inv H. apply IH in H. apply vinsert_length in Hr0. lia.
    + apply IH in H. rewrite length_app in H. simpl in H. lia.
Qed.

Lemma reorder_suffix_length n vec newVec i newVec' :
  reorder_suffix n vec newVec i = Done newVec' →
  length newVec' = (n + length newVec)%nat.
Proof.
  revert newVec i. induction n as [|n IH]; intros newVec i; simpl.
  - by intros [= <-].
  - intros H. bind_inv H. apply IH in H.
    rewrite length_app in H. simpl in H. lia.
Qed.

(** The rebuilt vector is never shorter than the one given. *)
Lemma reorder_length vec pivot begin end_ out p :
  reorder name vec pivot begin end_ = Done (out, p) →
  (length vec ≤ length out)%nat.
Proof.
  unfold reorder. intros H.
  bind_inv H. destruct r as [vec1 end1].
  bind_inv H. bind_inv H. destruct r0 as [newVec2 p2].
  bind_inv H. injection H as <- <-.
  apply reorder_excise_length in Hr.
  apply reorder_prefix_length in Hr0.
  apply reorder_scan_length in Hr1.
  apply reorder_suffix_length in Hr2.
  unfold size in *. simpl in *.
  destruct Hr as [[-> ->]|[Hl ->]]; lia.
Qed.

Lemma partition_select_length vec begin end_ vec' pivot :
  partition_select name vec begin end_ = Done (vec', pivot) →
  length vec' = length vec.
Proof.
  unfold partition_select. intros H. do 3 bind_inv H.
  repeat match type of H with
         | (if ?c then _ else _) = _ => destruct c
         end;
    repeat match type of H with
           | _ ≫= _ = Done _ =>
               let a := fresh "v" in
               let Ha := fresh "Hv" in
               apply bind_Done in H as (a & Ha & H);
               apply vset_length in Ha
           end;
    injection H as <- _; congruence.
Qed.

Lemma partition_length vec begin end_ vec' p :
  partition name vec begin end_ = Done (vec', p) →
  (length vec ≤ length vec')%nat.
Proof.
  unfold partition. intros H. bind_inv H. destruct r as [vec1 pivot].
  apply partition_select_length in Hr. apply reorder_length in H. lia.
Qed.

Lemma introSort_length fuel vec maxDepth begin end_ vec' :
  introSort name fuel vec maxDepth begin end_ = Done vec' →
  (length vec ≤ length vec')%nat.
Proof.
  revert vec maxDepth begin end_ vec'.
  induction fuel as [|fuel IH]; intros vec maxDepth begin end_ vec'; simpl;
    [done|].
  destruct (size vec <=? 1); [by intros [= ->]|].
  destruct (size vec =? 2).
  - intros H. do 2 bind_inv H.
    destruct (QString_compare (name r) (name r0) >=? 0).
    + do 2 bind_inv H. injection H as <-.
      apply vset_length in Hr1, Hr2. lia.
    + by injection H as <-.
  - destruct (maxDepth =? 0).
    + by intros ->%heapSort_unchanged.
    + intros H. bind_inv H. destruct r as [vec1 p]. bind_inv H.
      apply partition_length in Hr. apply IH in Hr0, H. lia.
Qed.

(** Once the vector holds three handles or more, no call of
    [introSort] whose [end] is at least two returns: the base cases look
    at the size of the whole vector, so the recursion goes on until
    [maxDepth] is zero, and the right-most call of [heapSort] is entered
    with [last > 0]. *)
Lemma introSort_never_returns fuel vec maxDepth begin end_ :
  (3 ≤ length vec)%nat → 2 ≤ end_ →
  ¬ returns (introSort name fuel vec maxDepth begin end_).
Proof.
  revert vec maxDepth begin end_.
  induction fuel as [|fuel IH]; intros vec maxDepth begin end_ Hlen Hend;
    simpl; [apply not_returns_OutOfFuel|].
  assert ((size vec <=? 1) = false) as -> by (unfold size; lia).
  assert ((size vec =? 2) = false) as -> by (unfold size; lia).
  destruct (maxDepth =? 0).
  - by apply heapSort_never_returns.
  - apply not_returns_bind. intros [vec1 p] Hp.
    apply not_returns_bind. intros vec2 Hl.
    apply partition_length in Hp. apply introSort_length in Hl.
    apply IH; lia.
Qed.

Lemma sort_never_returns fuel (l : list ptr) :
  (3 ≤ length l)%nat → ¬ returns (sort name fuel l).
Proof.
  intros Hlen. unfold sort.
  apply introSort_never_returns; [done | unfold size; lia].
Qed.

End SortEngineFacts.

(** ** What [reorder] builds *)

Lemma vget_middle (l1 : list ptr) x l2 :
  vget (l1 ++ x :: l2) (Z.of_nat (length l1)) = Done x.
Proof.
  apply vget_Done. unfold size. rewrite length_app. simpl. split; [lia|].
  rewrite Nat2Z.id. by rewrite list_lookup_middle.
Qed.

Section ReorderFacts.

Context (name : ptr → string).

Lemma reorder_excise_spec (r1 pre tl : list ptr) pivot n end_ :
  pivot ∉ r1 →
  reorder_excise (length r1 + S n) (pre ++ r1 ++ pivot :: tl) pivot
                 (Z.of_nat (length pre)) end_
  = Done (pre ++ r1 ++ tl, end_ - 1).
Proof.
  revert pre. induction r1 as [|x r1 IH]; intros pre Hnot; simpl.
  - rewrite vget_middle. simpl. unfold equals. rewrite Z.eqb_refl.
    assert (vremove (pre ++ pivot :: tl) (Z.of_nat (length pre))
            = Done (pre ++ tl)) as ->; [|done].
    apply vremove_Done. unfold size. rewrite length_app. simpl.
    split; [lia|]. rewrite Nat2Z.id.
    by rewrite delete_middle.
  - rewrite vget_middle. simpl. unfold equals.
    apply not_elem_of_cons in Hnot as [Hne Hnot].
    assert ((x =? pivot) = false) as -> by lia.
    specialize (IH (pre ++ [x]) Hnot).
    rewrite length_app in IH. simpl in IH.
    replace (Z.of_nat (length pre) + 1) with (Z.of_nat (length pre + 1)) by lia.
    rewrite <- !(assoc_L (++)) in IH. simpl in IH. exact IH.
Qed.

Lemma reorder_prefix_spec (p2 p1 rest newVec : list ptr) :
  reorder_prefix (length p2) (p1 ++ p2 ++ rest) newVec (Z.of_nat (length p1))
  = Done (reverse p2 ++ newVec).
Proof.
  revert p1 newVec. induction p2 as [|x p2 IH]; intros p1 newVec; simpl.
  - done.
  - rewrite vget_middle. simpl.
    specialize (IH (p1 ++ [x]) (x :: newVec)).
    rewrite length_app in IH. simpl in IH.
    replace (Z.of_nat (length p1) + 1) with (Z.of_nat (length p1 + 1)) by lia.
    rewrite <- !(assoc_L (++)) in IH. simpl in IH. rewrite IH.
    by rewrite reverse_cons, <- (assoc_L (++)).
Qed.

Lemma reorder_scan_spec (xs seen rest A T : list ptr) pivot p :
  reorder_scan name (length xs) (seen ++ xs ++ rest) (A ++ T) (name pivot)
               (Z.of_nat (length A)) (Z.of_nat (length seen)) p
  = Done (A ++ reverse (filter (notAbove name pivot) xs) ++ T
            ++ filter (λ x, ¬ notAbove name pivot x) xs,
          p + Z.of_nat (length (filter (notAbove name pivot) xs))).
Proof.
  revert seen T p. induction xs as [|x xs IH]; intros seen T p; simpl.
  - rewrite filter_nil, (right_id_L [] (++)). do 2 f_equal. lia.
  - rewrite vget_middle. simpl.
    specialize (IH (seen ++ [x])).
    rewrite length_app in IH. simpl in IH.
    replace (Z.of_nat (length seen) + 1)
      with (Z.of_nat (length seen + 1)) by lia.
    rewrite <- !(assoc_L (++)) in IH. simpl in IH.
    destruct (QString_compare (name pivot) (name x) >=? 0) eqn:E.
    + assert (notAbove name pivot x) as Hx by (unfold notAbove; lia).
      assert (vinsert (A ++ T) (Z.of_nat (length A)) x = Done (A ++ x :: T))
        as ->.
      { apply vinsert_Done. unfold size. rewrite length_app. split; [lia|].
        rewrite Nat2Z.id. rewrite take_app_length, drop_app_length. done. }
      simpl. rewrite IH.
      rewrite (filter_cons_True (notAbove name pivot)) by done.
      rewrite (filter_cons_False (λ x, ¬ notAbove name pivot x)) by tauto.
      rewrite reverse_cons, <- (assoc_L (++)). simpl.
      do 2 f_equal. lia.
    + assert (¬ notAbove name pivot x) as Hx by (unfold notAbove; lia).
      rewrite <- (assoc_L (++)). rewrite IH.
      rewrite (filter_cons_False (notAbove name pivot)) by done.
      rewrite (filter_cons_True (λ x, ¬ notAbove name pivot x)) by done.
      by rewrite <- !(assoc_L (++)).
Qed.

Lemma reorder_suffix_spec (s2 s1 newVec : list ptr) :
  reorder_suffix (length s2) (s1 ++ s2) newVec (Z.of_nat (length s1))
  = Done (newVec ++ s2).
Proof.
  revert s1 newVec. induction s2 as [|x s2 IH]; intros s1 newVec; simpl.
  - by rewrite (right_id_L [] (++)).
  - rewrite vget_middle. simpl.
    specialize (IH (s1 ++ [x]) (newVec ++ [x])).
    rewrite length_app in IH. simpl in IH.
    replace (Z.of_nat (length s1) + 1) with (Z.of_nat (length s1 + 1)) by lia.
    rewrite <- !(assoc_L (++)) in IH. simpl in IH. by rewrite IH.
Qed.

(** The vector [reorder] builds, for a range that holds the pivot:
    the prefix reversed, the elements not above the pivot in reverse
    scan order, the pivot, the elements above it in scan order, the
    suffix. *)
Lemma reorder_exact (pre r1 r2 suf : list ptr) pivot :
  pivot ∉ r1 →
  let rest := r1 ++ r2 in
  reorder name (pre ++ (r1 ++ pivot :: r2) ++ suf) pivot
          (Z.of_nat (length pre))
          (Z.of_nat (length pre + length (r1 ++ pivot :: r2)))
  = Done (reverse pre ++ reverse (filter (notAbove name pivot) rest)
            ++ pivot :: filter (λ x, ¬ notAbove name pivot x) rest ++ suf,
          Z.of_nat (length pre)
          + Z.of_nat (length (filter (notAbove name pivot) rest))).
Proof.
  intros Hnot rest. unfold reorder.
  replace (Z.to_nat (Z.of_nat (length pre + length (r1 ++ pivot :: r2))
                     - Z.of_nat (length pre)))
    with (length r1 + S (length r2))%nat
    by (rewrite length_app; simpl; lia).
  rewrite <- !(assoc_L (++)). simpl.
  rewrite reorder_excise_spec by done. simpl.
  rewrite Nat2Z.id.
  pose proof (reorder_prefix_spec pre [] (r1 ++ r2 ++ suf) [pivot]) as Hpre.
  change (Z.of_nat (length [])) with 0 in Hpre. simpl in Hpre.
  rewrite Hpre. simpl. clear Hpre.
  replace (Z.to_nat (Z.of_nat (length pre + length (r1 ++ pivot :: r2)) - 1
                     - Z.of_nat (length pre)))
    with (length rest)
    by (unfold rest; rewrite !length_app; simpl; lia).
  pose proof (reorder_scan_spec rest pre suf (reverse pre) [pivot] pivot
                (Z.of_nat (length pre))) as Hscan.
  rewrite length_reverse in Hscan. unfold rest in Hscan at 2.
  rewrite <- !(assoc_L (++)) in Hscan. rewrite Hscan. simpl. clear Hscan.
  replace (Z.to_nat (size (pre ++ r1 ++ r2 ++ suf)
                     - (Z.of_nat (length pre + length (r1 ++ pivot :: r2)) - 1)))
    with (length suf)
    by (unfold size; rewrite !length_app; simpl; lia).
  replace (Z.of_nat (length pre + length (r1 ++ pivot :: r2)) - 1)
    with (Z.of_nat (length (pre ++ r1 ++ r2)))
    by (rewrite !length_app; simpl; lia).
  pose proof (reorder_suffix_spec suf (pre ++ r1 ++ r2)) as Hsuf.
  rewrite <- !(assoc_L (++)) in Hsuf. rewrite Hsuf. simpl.
  by rewrite <- !(assoc_L (++)).
Qed.

End ReorderFacts.

(** ** The name order *)

Lemma compareCodes_antisym a b : compareCodes b a = - compareCodes a b.
Proof.
  revert b. induction a as [|x a IH]; intros [|y b]; simpl; try done.
  destruct (N.ltb_spec x y), (N.ltb_spec y x); first [lia | apply IH].
Qed.

Lemma QString_compare_antisym a b :
  QString_compare b a = - QString_compare a b.
Proof. apply compareCodes_antisym. Qed.

Lemma compareCodes_refl a : compareCodes a a = 0.
Proof. induction a as [|x a IH]; simpl; [done|]. by rewrite N.ltb_irrefl. Qed.

Lemma compareCodes_trans a b c :
  compareCodes a b ≤ 0 → compareCodes b c ≤ 0 → compareCodes a c ≤ 0.
Proof.
  revert b c. induction a as [|x a IH]; intros [|y b] [|z c]; simpl;
    try done; try lia.
  destruct (N.ltb_spec x y), (N.ltb_spec y x), (N.ltb_spec y z),
    (N.ltb_spec z y), (N.ltb_spec x z), (N.ltb_spec z x);
    first [lia | apply IH].
Qed.

Section NameOrderFacts.

Context (name : ptr → string).

Lemma notAbove_nameLe pivot x : notAbove name pivot x ↔ nameLe name x pivot.
Proof.
  unfold notAbove, nameLe. rewrite (QString_compare_antisym (name pivot)). lia.
Qed.

Lemma nameLe_refl a : nameLe name a a.
Proof. unfold nameLe, QString_compare. by rewrite compareCodes_refl. Qed.

Lemma nameLe_total a b : nameLe name a b ∨ nameLe name b a.
Proof.
  unfold nameLe. rewrite (QString_compare_antisym (name a) (name b)). lia.
Qed.

Lemma nameLe_trans a b c :
  nameLe name a b → nameLe name b c → nameLe name a c.
Proof. apply compareCodes_trans. Qed.

End NameOrderFacts.

(** ** C5: the reorder step *)

(** C5, as amended.  For a range [[begin, end)] inside the vector that
    holds the pivot, [reorder] returns; the suffix from [end] on is kept,
    the prefix below [begin] keeps its handles (and is unchanged when
    [begin <= 1]); between them, after the first handle equal to the
    pivot is taken out of the range, come the handles whose name does not
    exceed the pivot's, in reverse scan order, then the pivot, then the
    handles whose name exceeds it, in scan order.  The value returned is
    [begin] plus the number of handles whose name does not exceed the
    pivot's: the final index of the pivot. *)
Theorem reorder_partitions (name : ptr → string) vec pivot begin end_ :
  0 ≤ begin → begin ≤ end_ → end_ ≤ size vec →
  pivot ∈ slice vec begin end_ →
  ∃ pre r1 r2,
    slice vec begin end_ = r1 ++ pivot :: r2 ∧ (pivot ∉ r1) ∧
    pre ≡ₚ take (Z.to_nat begin) vec ∧
    (begin ≤ 1 → pre = take (Z.to_nat begin) vec) ∧
    reorder name vec pivot begin end_ =
      Done (pre ++ reverse (filter (notAbove name pivot) (r1 ++ r2))
              ++ pivot :: filter (λ x, ¬ notAbove name pivot x) (r1 ++ r2)
              ++ drop (Z.to_nat end_) vec,
            begin + Z.of_nat (length (filter (notAbove name pivot) (r1 ++ r2)))).
Proof.
  intros Hb Hbe He Hin. unfold size in He.
  apply list_elem_of_split_l in Hin as (r1 & r2 & Hslice & Hnot).
  exists (reverse (take (Z.to_nat begin) vec)), r1, r2.
  split; [done|]. split; [done|].
  split; [apply reverse_Permutation|].
  split.
  { intros Hle. destruct (take (Z.to_nat begin) vec) as [|x [|y l]] eqn:E;
      [done..|].
    apply (f_equal length) in E. rewrite length_take in E. simpl in E. lia. }
  assert (vec = take (Z.to_nat begin) vec ++ (r1 ++ pivot :: r2)
                  ++ drop (Z.to_nat end_) vec) as Hvec.
  { rewrite <- Hslice. unfold slice.
    rewrite <- (take_drop (Z.to_nat begin) vec) at 1. f_equal.
    rewrite <- (take_drop (Z.to_nat (end_ - begin))
                  (drop (Z.to_nat begin) vec)) at 1.
    f_equal. rewrite drop_drop. f_equal. lia. }
  assert (length (take (Z.to_nat begin) vec) = Z.to_nat begin) as Hlen
    by (rewrite length_take; lia).
  assert (length (r1 ++ pivot :: r2) = Z.to_nat (end_ - begin)) as Hlen2.
  { rewrite <- Hslice. unfold slice. rewrite length_take, length_drop. lia. }
  pose proof (reorder_exact name (take (Z.to_nat begin) vec) r1 r2
                (drop (Z.to_nat end_) vec) pivot Hnot) as Hex.
  simpl in Hex. rewrite <- Hvec in Hex.
  rewrite Hlen, Hlen2 in Hex.
  replace (Z.of_nat (Z.to_nat begin)) with begin in Hex by lia.
  replace (Z.of_nat (Z.to_nat begin + Z.to_nat (end_ - begin)))
    with end_ in Hex by lia.
  exact Hex.
Qed.

Lemma reorder_partitions_witness :
  ∃ pre r1 r2,
    slice [6; 5; 3; 2; 1; 4] 2 6 = r1 ++ 2 :: r2 ∧ (2 ∉ r1) ∧
    pre ≡ₚ take (Z.to_nat 2) [6; 5; 3; 2; 1; 4] ∧
    (2 ≤ 1 → pre = take (Z.to_nat 2) [6; 5; 3; 2; 1; 4]) ∧
    reorder exampleName [6; 5; 3; 2; 1; 4] 2 2 6 =
      Done (pre ++ reverse (filter (notAbove exampleName 2) (r1 ++ r2))
              ++ 2 :: filter (λ x, ¬ notAbove exampleName 2 x) (r1 ++ r2)
              ++ drop (Z.to_nat 6) [6; 5; 3; 2; 1; 4],
            2 + Z.of_nat (length (filter (notAbove exampleName 2) (r1 ++ r2)))).
Proof.
  apply (reorder_partitions exampleName [6; 5; 3; 2; 1; 4] 2 2 6).
  - lia.
  - lia.
  - vm_compute. discriminate.
  - apply (bool_decide_unpack _). vm_compute. exact I.
Defined.

(** C5, as the claim has it, fails on [[a; b; c; d]] with pivot [b] over
    the whole vector: [reorder] leaves [a] ahead of the pivot and returns
    1, where the claim puts the pivot first and counts the two names
    above it. *)
Lemma reorder_as_claimed_counterexample :
  ∃ out ret,
    reorder exampleName [1; 2; 3; 4] 2 0 4 = Done (out, ret) ∧
    ¬ reorder_as_claimed exampleName [1; 2; 3; 4] 2 0 4 out ret.
Proof.
  exists [1; 2; 3; 4], 1. split; [reflexivity|].
  intros (rest & ge & lt & _ & _ & _ & Hout & _).
  simpl in Hout. discriminate.
Qed.

(** ** C4: the loop of the heap fallback *)

Lemma vget_in_range vec i : 0 ≤ i < size vec → ∃ x, vget vec i = Done x.
Proof.
  intros Hi. unfold size in Hi.
  destruct (lookup_lt_is_Some_2 vec (Z.to_nat i)) as [x Hx]; [lia|].
  exists x. by apply vget_Done.
Qed.

Lemma vset_in_range vec i x :
  0 ≤ i < size vec → vset vec i x = Done (<[Z.to_nat i := x]> vec).
Proof. intros Hi. by apply vset_Done. Qed.

(** With its accesses in range, [siftDown] returns or runs for ever. *)
Lemma siftDown_loop_no_fault fuel vec root siftEnd :
  0 ≤ root → siftEnd < size vec →
  siftDown_loop fuel vec root siftEnd ≠ Fault.
Proof.
  intros Hroot Hend. induction fuel as [|fuel IH]; simpl; [done|].
  destruct (Z.leb_spec (root * 2 + 1) siftEnd) as [Hle|Hgt]; [|done].
  destruct (vget_in_range vec root) as [a ->]; [lia|].
  destruct (vget_in_range vec (root * 2 + 1)) as [c ->]; [lia|]. simpl.
  destruct (a <? c); [done|].
  destruct (Z.leb_spec (root * 2 + 1 + 1) siftEnd) as [Hle2|Hgt2]; simpl.
  - destruct (vget_in_range vec (root * 2 + 1 + 1)) as [c' ->]; [lia|]. simpl.
    destruct (a <? c'); [done|]. by rewrite Z.eqb_refl.
  - by rewrite Z.eqb_refl.
Qed.

(** When the address at the root is below the address of its first
    child, [siftDown] sets [swap] and goes round again with nothing
    changed: it runs for ever. *)
Lemma siftDown_loop_spins fuel vec root siftEnd a c :
  root * 2 + 1 ≤ siftEnd →
  vget vec root = Done a → vget vec (root * 2 + 1) = Done c → a < c →
  siftDown_loop fuel vec root siftEnd = OutOfFuel.
Proof.
  intros Hle Ha Hc Hac. induction fuel as [|fuel IH]; simpl; [done|].
  assert ((root * 2 + 1 <=? siftEnd) = true) as -> by zbool.
  rewrite Ha, Hc. simpl.
  by assert ((a <? c) = true) as -> by zbool.
Qed.

Lemma siftDown_outcome fuel vec siftBegin siftEnd :
  0 ≤ siftBegin → siftEnd < size vec →
  siftDown fuel vec siftBegin siftEnd = Done vec ∨
  siftDown fuel vec siftBegin siftEnd = OutOfFuel.
Proof.
  intros Hb He.
  pose proof (siftDown_loop_no_fault fuel vec siftBegin siftEnd Hb He) as Hnf.
  unfold siftDown.
  destruct (siftDown_loop fuel vec siftBegin siftEnd) as [vec'| |] eqn:E;
    [|done|by right].
  left. by apply siftDown_loop_unchanged in E as ->.
Qed.

Lemma heapify_loop_outcome fuel vec begin end_ start :
  0 ≤ begin → end_ ≤ size vec →
  heapify_loop fuel vec begin end_ start = Done vec ∨
  heapify_loop fuel vec begin end_ start = OutOfFuel.
Proof.
  intros Hb He. revert start.
  induction fuel as [|fuel IH]; intros start; simpl; [by right|].
  destruct (start >=? begin); [|by left].
  destruct (siftDown_outcome fuel vec begin (end_ - 1)) as [-> | ->];
    [lia.. | | by right].
  simpl. apply IH.
Qed.

(** Inside the loop of [heapSort] every step budget runs out. *)
Lemma heapSort_loop_diverges fuel vec begin end_ last :
  0 ≤ begin < size vec → 0 < last < size vec → end_ ≤ size vec →
  heapSort_loop fuel vec begin end_ last = OutOfFuel.
Proof.
  revert vec end_.
  induction fuel as [|fuel IH]; intros vec end_ Hb Hl He; simpl; [done|].
  assert ((last >? 0) = true) as -> by lia.
  destruct (vget_in_range vec begin) as [temp ->]; [lia|].
  destruct (vget_in_range vec last) as [l ->]; [lia|]. simpl.
  rewrite vset_in_range by lia. simpl.
  rewrite vset_in_range by (unfold size; rewrite length_insert; unfold size in *; lia).
  simpl.
  set (vec' := <[Z.to_nat last := temp]> (<[Z.to_nat begin := l]> vec)).
  assert (size vec' = size vec) as Hsz
    by (unfold size, vec'; by rewrite !length_insert).
  destruct (siftDown_outcome fuel vec' begin (end_ - 1)) as [-> | ->];
    [lia.. | | done].
  simpl. apply IH; lia.
Qed.

(** C4, on the code.  On every range of at least two handles inside the
    vector, [heapSort] does not terminate: whatever the step budget, it
    runs out.  The loop tests [last > 0] and never changes [last]. *)
Theorem heapSort_runs_for_ever fuel vec begin end_ :
  0 ≤ begin → 2 ≤ end_ - begin → end_ ≤ size vec →
  heapSort fuel vec begin end_ = OutOfFuel.
Proof.
  intros Hb Hsz He. unfold heapSort, heapify.
  destruct (heapify_loop_outcome fuel vec begin end_
              (begin + Z.quot (end_ - 2) 2)) as [-> | ->];
    [lia.. | | done].
  simpl. apply heapSort_loop_diverges; lia.
Qed.

Lemma heapSort_runs_for_ever_witness :
  heapSort 1000 [6; 5; 4] 0 3 = OutOfFuel.
Proof.
  apply (heapSort_runs_for_ever 1000 [6; 5; 4] 0 3).
  - lia.
  - lia.
  - vm_compute. discriminate.
Defined.

(** ** C7: the heap fallback and the name order *)

(** C7, on the code.  [siftDown] compares addresses, not names, and
    never exchanges anything: when it returns, the vector is the one it
    was given.  On [[a; b; c]] held at falling addresses [heapify] returns
    the vector as it is, its root [a] below the child [b], and [heapSort]
    never returns, so no range is left in name order by the fallback. *)
Theorem heap_fallback_does_not_order :
  (∀ fuel vec siftBegin siftEnd,
      match siftDown fuel vec siftBegin siftEnd with
      | Done vec' => vec' = vec
      | _ => True
      end) ∧
  heapify 10 [6; 5; 4] 0 3 = Done [6; 5; 4] ∧
  ¬ nameLe fallingName 5 6 ∧
  ∀ fuel, heapSort fuel [6; 5; 4] 0 3 = OutOfFuel.
Proof.
  split; [|split; [|split]].
  - intros fuel vec siftBegin siftEnd.
    destruct (siftDown fuel vec siftBegin siftEnd) eqn:E; [|done..].
    by apply siftDown_unchanged in E.
  - reflexivity.
  - vm_compute. intros H. by apply H.
  - intros fuel. unfold heapSort, heapify.
    destruct (heapify_loop_outcome fuel [6; 5; 4] 0 3 (0 + Z.quot (3 - 2) 2))
      as [-> | ->]; [lia | vm_compute; discriminate | | done].
    simpl. apply heapSort_loop_diverges; [| |]; vm_compute;
      first [split; congruence | congruence].
Qed.

(** ** C1, C2, C3: the sort as [insertObject] runs it *)

(** Up to two handles the sort returns them in name order. *)
Lemma sort_small (name : ptr → string) fuel (l : list ptr) :
  (length l ≤ 2)%nat →
  ∃ l', sort name (S fuel) l = Done l' ∧ l' ≡ₚ l ∧ sortedByName name l'.
Proof.
  intros Hlen. destruct l as [|a [|b [|c l]]]; simpl in Hlen; [| | |lia].
  - exists []. split; [done|]. split; [done|]. by intros i j x y _ ?.
  - exists [a]. split; [done|]. split; [done|].
    intros [|i] [|j] x y _ Hx Hy; simplify_eq/=. apply nameLe_refl.
  - unfold sort. simpl.
    destruct (Z.geb_spec (QString_compare (name a) (name b)) 0) as [Hge|Hlt].
    + exists [b; a]. split; [done|]. split; [apply Permutation_swap|].
      intros [|[|i]] [|[|j]] x y Hij Hx Hy; simplify_eq/=;
        try apply nameLe_refl; try lia.
      unfold nameLe. rewrite QString_compare_antisym. lia.
    + exists [a; b]. split; [done|]. split; [done|].
      intros [|[|i]] [|[|j]] x y Hij Hx Hy; simplify_eq/=;
        try apply nameLe_refl; try lia.
      unfold nameLe. lia.
Qed.

(** C1, on the code.  Sorting [[a; b; c]], the first partition leaves the
    vector as it is and returns 1; the recursion then visits the range
    [[0, 1)], and [partition] there writes [vec[0]] over the last slot of
    the vector: the handle [c] is gone and [a] is held twice.  The sort
    itself never returns. *)
Theorem sort_loses_a_handle :
  partition exampleName [1; 2; 3] 0 3 = Done ([1; 2; 3], 1) ∧
  partition exampleName [1; 2; 3] 0 1 = Done ([1; 2; 1], 0) ∧
  ¬ [1; 2; 1] ≡ₚ [1; 2; 3] ∧
  ∀ fuel, ¬ returns (sort exampleName fuel [1; 2; 3]).
Proof.
  split; [reflexivity|]. split; [reflexivity|]. split.
  - intros Hp. assert (3 ∈ [1; 2; 1]) as Hin by (rewrite Hp; repeat constructor).
    repeat (apply elem_of_cons in Hin as [Hin|Hin]; [discriminate|]).
    by apply elem_of_nil in Hin.
  - intros fuel. apply sort_never_returns. simpl. lia.
Qed.

(** C2, on the code.  Inserting into a collection that already holds two
    entities or more never returns: the sort that [insertObject] runs on
    the three or more handles does not come back, so no sequence in name
    order is produced. *)
Theorem insertObject_never_returns fuel h this index object g :
  layers h !! this = Some (ObjectGroupLayer g) →
  (2 ≤ length (mObjects g))%nat →
  0 ≤ index ≤ size (mObjects g) →
  ¬ returns (insertObject fuel h this index object).
Proof.
  intros Hg Hlen Hidx. unfold insertObject, getGroup. rewrite Hg. simpl.
  apply not_returns_bind. intros l Hl.
  apply QList_insert_length in Hl.
  apply not_returns_bind. intros l' Hl'.
  exfalso. apply (sort_never_returns (nameOf h) fuel l); [lia|]. by exists l'.
Qed.

Lemma insertObject_never_returns_witness :
  ¬ returns (insertObject 1000 exampleHeap 100 0 3).
Proof.
  apply (insertObject_never_returns 1000 exampleHeap 100 0 3
           (mkObjectGroup "A" 0 0 10 10 None [1; 2] (Some 255) IndexOrder)).
  - vm_compute. reflexivity.
  - simpl. lia.
  - vm_compute. split; discriminate.
Defined.

(** C3, on the code.  The base cases of [introSort] test the size of the
    whole vector and work on its slots 0 and 1.  The call on the range
    [[0, 1)] that the sort of [[a; b; c]] makes changes the vector; a call
    on a range of two handles inside a longer vector does no
    compare-exchange and never returns; and a vector of two handles is
    exchanged whatever the range is. *)
Theorem introSort_base_cases_test_the_whole_vector :
  introSort exampleName 10 [1; 2; 3] 1 0 1 = Done [1; 2; 1] ∧
  (∀ fuel maxDepth, ¬ returns (introSort exampleName fuel [1; 3; 2] maxDepth 1 3)) ∧
  introSort exampleName 10 [2; 1] 2 0 0 = Done [1; 2].
Proof.
  split; [reflexivity|]. split; [|reflexivity].
  intros fuel maxDepth. apply introSort_never_returns; simpl; lia.
Qed.

(** ** C6: the median of three *)

Section PartitionFacts.

Context (name : ptr → string).

(** X5.  Whenever the median-of-three step of [partition] returns, on
    any range, the pivot it chooses is a median, by name, of the three
    candidates at [begin], at the middle and at [end - 1]. *)
Lemma partition_select_median vec begin end_ vec' pivot :
  partition_select name vec begin end_ = Done (vec', pivot) →
  ∃ first middle last lo hi,
    vget vec begin = Done first ∧
    vget vec (begin + Z.quot (end_ - begin) 2) = Done middle ∧
    vget vec (end_ - 1) = Done last ∧
    [lo; pivot; hi] ≡ₚ [first; middle; last] ∧
    nameLe name lo pivot ∧ nameLe name pivot hi.
Proof.
  unfold partition_select. intros H.
  bind_inv H. bind_inv H. bind_inv H.
  rename r into first, r0 into last, r1 into middle.
  exists first, middle, last.
  pose proof (QString_compare_antisym (name first) (name last)).
  pose proof (QString_compare_antisym (name first) (name middle)).
  pose proof (QString_compare_antisym (name middle) (name last)).
  destruct (Z.geb_spec (QString_compare (name first) (name last)) 0);
    [destruct (Z.geb_spec (QString_compare (name first) (name middle)) 0);
     [destruct (Z.geb_spec (QString_compare (name middle) (name last)) 0)|]
    |destruct (Z.leb_spec (QString_compare (name first) (name middle)) 0);
     [destruct (Z.geb_spec (QString_compare (name middle) (name last)) 0)|]];
    repeat match type of H with
           | _ ≫= _ = Done _ =>
               let a := fresh "v" in
               let Ha := fresh "Hv" in
               apply bind_Done in H as (a & Ha & H)
           end;
    injection H as _ <-.
  all: unfold nameLe.
  - exists last, first. split_and!; [done..| |lia|lia].
    exact (reverse_Permutation [first; middle; last]).
  - exists middle, first. split_and!; [done..| |lia|lia].
    symmetry. exact (Permutation_cons_append [middle; last] first).
  - exists last, middle. split_and!; [done..| |lia|lia].
    exact (Permutation_cons_append [first; middle] last).
  - exists first, middle. split_and!; [done..| |lia|lia].
    apply perm_skip, perm_swap.
  - exists first, last. split_and!; [done..|lia|lia].
  - exists middle, last. split_and!; [done..| |lia|lia].
    apply perm_swap.
Qed.


End PartitionFacts.

(** C6, on the code.  Sorting [[a; b; c; d; e; f]], the first partition
    returns [[c; b; a; d; e; f]] and 3, and [partition] is then run on the
    range [[0, 3)].  It picks the median [b], but it stores the other two
    candidates at slot 0 and at the last slot of the vector, not at
    [begin] and [end - 1]: slot 5, outside the range, is overwritten, so
    the handle [f] is gone, and slot 2 keeps the smallest candidate where
    the claim has the largest. *)
Theorem partition_writes_outside_the_range :
  partition exampleName [1; 2; 3; 4; 5; 6] 0 6 = Done ([3; 2; 1; 4; 5; 6], 3) ∧
  ∃ vec',
    partition_select exampleName [3; 2; 1; 4; 5; 6] 0 3 = Done (vec', 2) ∧
    vec' !! 5%nat ≠ [3; 2; 1; 4; 5; 6] !! 5%nat ∧
    vec' !! 2%nat = Some 1 ∧
    6 ∉ vec'.
Proof.
  split; [reflexivity|]. exists [1; 2; 1; 4; 5; 3].
  split; [reflexivity|]. split; [discriminate|]. split; [reflexivity|].
  intros Hin.
  repeat (apply elem_of_cons in Hin as [Hin|Hin]; [discriminate|]).
  by apply elem_of_nil in Hin.
Qed.

(** ** C8: moving a block of entities *)

Lemma snoc_app (l1 : list ptr) x l2 : (l1 ++ [x]) ++ l2 = l1 ++ x :: l2.
Proof. by rewrite <- app_assoc. Qed.

Lemma moveObjects_loop_spec (m2 m1 a c : list ptr) :
  moveObjects_loop (length m2) (a ++ m1 ++ c) (m1 ++ m2)
                   (Z.of_nat (length a)) (Z.of_nat (length m1))
  = Done (a ++ m1 ++ m2 ++ c).
Proof.
  revert m1. induction m2 as [|x m2 IH]; intros m1; simpl; [done|].
  unfold QList_at. rewrite vget_middle. simpl.
  assert (QList_insert (a ++ m1 ++ c)
            (Z.of_nat (length a) + Z.of_nat (length m1)) x
          = Done (a ++ (m1 ++ [x]) ++ c)) as ->.
  { rewrite QList_insert_in_range by (unfold size; rewrite !length_app; lia).
    f_equal.
    replace (Z.to_nat (Z.of_nat (length a) + Z.of_nat (length m1)))
      with (length (a ++ m1)) by (rewrite length_app; lia).
    rewrite (assoc_L (++) a m1 c), take_app_length, drop_app_length.
    by rewrite <- !(assoc_L (++)). }
  simpl. specialize (IH (m1 ++ [x])).
  rewrite length_app in IH. simpl in IH.
  replace (Z.of_nat (length m1) + 1) with (Z.of_nat (length m1 + 1)) by lia.
  rewrite !snoc_app in IH. rewrite !snoc_app. exact IH.
Qed.

(** The block [M] moved towards the front, over [B]. *)
Lemma moveObjects_backward (A B M C : list ptr) :
  moveObjects (A ++ B ++ M ++ C) (Z.of_nat (length (A ++ B)))
              (Z.of_nat (length A)) (Z.of_nat (length M))
  = Done (A ++ M ++ B ++ C).
Proof.
  unfold moveObjects. rewrite length_app.
  assert ((Z.of_nat (length M) >=? 0) = true) as -> by (apply Z.geb_le; lia).
  assert ((Z.of_nat (length A) <=? Z.of_nat (length A + length B)) = true)
    as -> by zbool.
  simpl.
  destruct ((Z.of_nat (length A) =? Z.of_nat (length A + length B))
            || (Z.of_nat (length A)
                =? Z.of_nat (length A + length B) + Z.of_nat (length M))
            || (Z.of_nat (length M) =? 0)) eqn:E.
  - apply orb_true_iff in E as [E|E];
      [apply orb_true_iff in E as [E|E]|]; apply Z.eqb_eq in E.
    + assert (B = []) as -> by (apply nil_length_inv; lia). done.
    + assert (B = []) as -> by (apply nil_length_inv; lia). done.
    + assert (M = []) as -> by (apply nil_length_inv; lia). done.
  - assert (QList_mid (A ++ B ++ M ++ C) (Z.of_nat (length A + length B))
              (Z.of_nat (length M)) = M) as ->.
    { unfold QList_mid. rewrite !Nat2Z.id.
      rewrite (assoc_L (++) A B), <- length_app, drop_app_length.
      by rewrite take_app_length. }
    assert (QList_erase (A ++ B ++ M ++ C) (Z.of_nat (length A + length B))
              (Z.of_nat (length A + length B) + Z.of_nat (length M))
            = Done (A ++ B ++ C)) as ->.
    { unfold QList_erase, size. rewrite !length_app.
      assert ((0 <=? Z.of_nat (length A + length B)) = true) as -> by zbool.
      assert ((Z.of_nat (length A + length B)
               <=? Z.of_nat (length A + length B) + Z.of_nat (length M)) = true)
        as -> by zbool.
      assert ((Z.of_nat (length A + length B) + Z.of_nat (length M)
               <=? Z.of_nat (length A + (length B + (length M + length C))))
              = true) as -> by zbool.
      simpl. f_equal.
      replace (Z.to_nat (Z.of_nat (length A + length B) + Z.of_nat (length M)))
        with (length ((A ++ B) ++ M)) by (rewrite !length_app; lia).
      rewrite Nat2Z.id, <- length_app.
      rewrite (assoc_L (++) A B (M ++ C)), take_app_length.
      rewrite (assoc_L (++) (A ++ B) M C), drop_app_length.
      by rewrite <- (assoc_L (++)). }
    simpl.
    assert ((Z.of_nat (length A) >? Z.of_nat (length A + length B)) = false)
      as -> by zbool.
    rewrite Nat2Z.id. exact (moveObjects_loop_spec M [] A (B ++ C)).
Qed.

(** The block [M] moved towards the back, over [B]. *)
Lemma moveObjects_forward (A M B C : list ptr) :
  moveObjects (A ++ M ++ B ++ C) (Z.of_nat (length A))
              (Z.of_nat (length (A ++ M ++ B))) (Z.of_nat (length M))
  = Done (A ++ B ++ M ++ C).
Proof.
  unfold moveObjects. rewrite !length_app.
  assert ((Z.of_nat (length M) >=? 0) = true) as -> by (apply Z.geb_le; lia).
  assert (((Z.of_nat (length A + (length M + length B)) <=? Z.of_nat (length A))
           || (Z.of_nat (length A + (length M + length B))
               >=? Z.of_nat (length A) + Z.of_nat (length M))) = true)
    as -> by (apply orb_true_iff; right; apply Z.geb_le; lia).
  simpl.
  destruct ((Z.of_nat (length A + (length M + length B)) =? Z.of_nat (length A))
            || (Z.of_nat (length A + (length M + length B))
                =? Z.of_nat (length A) + Z.of_nat (length M))
            || (Z.of_nat (length M) =? 0)) eqn:E.
  - apply orb_true_iff in E as [E|E];
      [apply orb_true_iff in E as [E|E]|]; apply Z.eqb_eq in E.
    + assert (B = []) as -> by (apply nil_length_inv; lia).
      assert (M = []) as -> by (apply nil_length_inv; lia). done.
    + assert (B = []) as -> by (apply nil_length_inv; lia). done.
    + assert (M = []) as -> by (apply nil_length_inv; lia). done.
  - assert (QList_mid (A ++ M ++ B ++ C) (Z.of_nat (length A))
              (Z.of_nat (length M)) = M) as ->.
    { unfold QList_mid. rewrite !Nat2Z.id.
      by rewrite drop_app_length, take_app_length. }
    assert (QList_erase (A ++ M ++ B ++ C) (Z.of_nat (length A))
              (Z.of_nat (length A) + Z.of_nat (length M))
            = Done (A ++ B ++ C)) as ->.
    { unfold QList_erase, size. rewrite !length_app.
      assert ((0 <=? Z.of_nat (length A)) = true) as -> by zbool.
      assert ((Z.of_nat (length A)
               <=? Z.of_nat (length A) + Z.of_nat (length M)) = true)
        as -> by zbool.
      assert ((Z.of_nat (length A) + Z.of_nat (length M)
               <=? Z.of_nat (length A + (length M + (length B + length C))))
              = true) as -> by zbool.
      simpl. f_equal.
      replace (Z.to_nat (Z.of_nat (length A) + Z.of_nat (length M)))
        with (length (A ++ M)) by (rewrite !length_app; lia).
      rewrite Nat2Z.id, take_app_length.
      by rewrite (assoc_L (++) A M (B ++ C)), drop_app_length. }
    simpl.
    assert ((Z.of_nat (length A + (length M + length B))
             >? Z.of_nat (length A)) = true) as ->.
    { apply orb_false_iff in E as [E _]. apply orb_false_iff in E as [E _].
      apply Z.eqb_neq in E. zbool. }
    replace (Z.of_nat (length A + (length M + length B)) - Z.of_nat (length M))
      with (Z.of_nat (length (A ++ B))) by (rewrite length_app; lia).
    pose proof (moveObjects_loop_spec M [] (A ++ B) C) as Hloop.
    change (Z.of_nat (length [])) with 0 in Hloop. simpl in Hloop.
    rewrite Nat2Z.id. by rewrite <- !app_assoc in Hloop.
Qed.

Lemma slice_length (l : list ptr) a b :
  0 ≤ a → a ≤ b → b ≤ size l → length (slice l a b) = Z.to_nat (b - a).
Proof.
  intros Ha Hab Hb. unfold slice, size in *.
  rewrite length_take, length_drop. lia.
Qed.

Lemma slice_app (l : list ptr) a b c :
  0 ≤ a → a ≤ b → b ≤ c → slice l a c = slice l a b ++ slice l b c.
Proof.
  intros Ha Hab Hbc. unfold slice.
  replace (Z.to_nat (c - a)) with (Z.to_nat (b - a) + Z.to_nat (c - b))%nat
    by lia.
  rewrite <- take_take_drop, drop_drop. do 3 f_equal. lia.
Qed.

Lemma slice_all (l : list ptr) : slice l 0 (size l) = l.
Proof.
  unfold slice, size. simpl.
  rewrite Z.sub_0_r, Nat2Z.id. apply firstn_all.
Qed.

Lemma moveObjects_in_range (mObjects : list ptr) from to count :
  0 ≤ from → 0 ≤ count → from + count ≤ size mObjects →
  0 ≤ to ≤ size mObjects →
  (to ≤ from →
   moveObjects mObjects from to count =
     Done (slice mObjects 0 to ++ slice mObjects from (from + count)
             ++ slice mObjects to from
             ++ slice mObjects (from + count) (size mObjects)))
  ∧ (from + count ≤ to →
     moveObjects mObjects from to count =
       Done (slice mObjects 0 from ++ slice mObjects (from + count) to
               ++ slice mObjects from (from + count)
               ++ slice mObjects to (size mObjects))).
Proof.
  intros Hf Hc Hfc Ht. split; intros Hsep.
  - pose proof (moveObjects_backward (slice mObjects 0 to)
                  (slice mObjects to from)
                  (slice mObjects from (from + count))
                  (slice mObjects (from + count) (size mObjects))) as H.
    rewrite <- !slice_app in H by lia.
    rewrite slice_all in H.
    rewrite !slice_length in H by lia.
    replace (Z.of_nat (Z.to_nat (from - 0))) with from in H by lia.
    replace (Z.of_nat (Z.to_nat (to - 0))) with to in H by lia.
    replace (Z.of_nat (Z.to_nat (from + count - from))) with count in H by lia.
    exact H.
  - pose proof (moveObjects_forward (slice mObjects 0 from)
                  (slice mObjects from (from + count))
                  (slice mObjects (from + count) to)
                  (slice mObjects to (size mObjects))) as H.
    rewrite <- !slice_app in H by lia.
    rewrite slice_all in H.
    rewrite !slice_length in H by lia.
    replace (Z.of_nat (Z.to_nat (from - 0))) with from in H by lia.
    replace (Z.of_nat (Z.to_nat (to - 0))) with to in H by lia.
    replace (Z.of_nat (Z.to_nat (from + count - from))) with count in H by lia.
    exact H.
Qed.

(** The inserts of the loop when the destination is the end of the
    list or beyond it: each one appends. *)
Lemma moveObjects_loop_append (m2 m1 a : list ptr) to :
  Z.of_nat (length a) ≤ to →
  moveObjects_loop (length m2) (a ++ m1) (m1 ++ m2) to (Z.of_nat (length m1))
  = Done (a ++ m1 ++ m2).
Proof.
  intros Hto. revert m1. induction m2 as [|x m2 IH]; intros m1; simpl.
  - by rewrite app_nil_r.
  - unfold QList_at. rewrite vget_middle. simpl.
    rewrite QList_insert_above by (unfold size; rewrite length_app; lia).
    simpl. specialize (IH (m1 ++ [x])).
    rewrite length_app in IH. simpl in IH.
    replace (Z.of_nat (length m1) + 1) with (Z.of_nat (length m1 + 1)) by lia.
    rewrite <- !app_assoc in IH. rewrite <- app_assoc. exact IH.
Qed.

Lemma QList_mid_block (A M T : list ptr) :
  QList_mid (A ++ M ++ T) (Z.of_nat (length A)) (Z.of_nat (length M)) = M.
Proof.
  unfold QList_mid. rewrite !Nat2Z.id.
  by rewrite drop_app_length, take_app_length.
Qed.

Lemma QList_erase_block (A M T : list ptr) :
  QList_erase (A ++ M ++ T) (Z.of_nat (length A))
              (Z.of_nat (length A) + Z.of_nat (length M))
  = Done (A ++ T).
Proof.
  unfold QList_erase, size. rewrite !length_app.
  assert ((0 <=? Z.of_nat (length A)) = true) as -> by zbool.
  assert ((Z.of_nat (length A)
           <=? Z.of_nat (length A) + Z.of_nat (length M)) = true)
    as -> by zbool.
  assert ((Z.of_nat (length A) + Z.of_nat (length M)
           <=? Z.of_nat (length A + (length M + length T))) = true)
    as -> by zbool.
  simpl. f_equal.
  replace (Z.to_nat (Z.of_nat (length A) + Z.of_nat (length M)))
    with (length (A ++ M)) by (rewrite !length_app; lia).
  rewrite Nat2Z.id, take_app_length.
  by rewrite (assoc_L (++) A M T), drop_app_length.
Qed.

(** The block [M] moved to a destination at the end of the list or
    beyond it: it lands at the end. *)
Lemma moveObjects_beyond (A M B : list ptr) to :
  Z.of_nat (length (A ++ M ++ B)) ≤ to →
  moveObjects (A ++ M ++ B) (Z.of_nat (length A)) to (Z.of_nat (length M))
  = Done (A ++ B ++ M).
Proof.
  rewrite !length_app. intros Hto. unfold moveObjects.
  assert ((Z.of_nat (length M) >=? 0) = true) as -> by (apply Z.geb_le; lia).
  assert (((to <=? Z.of_nat (length A))
           || (to >=? Z.of_nat (length A) + Z.of_nat (length M))) = true)
    as -> by (apply orb_true_iff; right; apply Z.geb_le; lia).
  simpl.
  destruct ((to =? Z.of_nat (length A))
            || (to =? Z.of_nat (length A) + Z.of_nat (length M))
            || (Z.of_nat (length M) =? 0)) eqn:E.
  - apply orb_true_iff in E as [E|E];
      [apply orb_true_iff in E as [E|E]|]; apply Z.eqb_eq in E.
    + assert (B = []) as -> by (apply nil_length_inv; lia).
      assert (M = []) as -> by (apply nil_length_inv; lia). done.
    + assert (B = []) as -> by (apply nil_length_inv; lia).
      by rewrite app_nil_r.
    + assert (M = []) as -> by (apply nil_length_inv; lia).
      by rewrite app_nil_r.
  - rewrite QList_mid_block, QList_erase_block. simpl.
    assert ((to >? Z.of_nat (length A)) = true) as ->.
    { apply orb_false_iff in E as [E _]. apply orb_false_iff in E as [E _].
      apply Z.eqb_neq in E. zbool. }
    rewrite Nat2Z.id.
    pose proof (moveObjects_loop_append M [] (A ++ B)
                  (to - Z.of_nat (length M))) as Hloop.
    rewrite length_app in Hloop.
    change (Z.of_nat (length [])) with 0 in Hloop. simpl in Hloop.
    rewrite app_nil_r, <- app_assoc in Hloop. apply Hloop. lia.
Qed.

Lemma slice_beyond (l : list ptr) a b :
  size l ≤ b → slice l a b = slice l a (size l).
Proof.
  intros Hb. unfold slice, size in *.
  rewrite !take_ge; [done| |]; rewrite length_drop; lia.
Qed.

Lemma slice_empty (l : list ptr) a b : b ≤ a → slice l a b = [].
Proof.
  intros Hb. unfold slice.
  by replace (Z.to_nat (b - a)) with 0%nat by lia.
Qed.

(** Where the block lands, with its destination at a position of the
    list or past its end. *)
Lemma moveObjects_result (mObjects : list ptr) from to count :
  0 ≤ count → to ≤ from ∨ from + count ≤ to →
  0 ≤ from → from + count ≤ size mObjects → 0 ≤ to →
  moveObjects mObjects from to count =
    Done (if decide (to ≤ from)
          then slice mObjects 0 to ++ slice mObjects from (from + count)
                 ++ slice mObjects to from
                 ++ slice mObjects (from + count) (size mObjects)
          else slice mObjects 0 from ++ slice mObjects (from + count) to
                 ++ slice mObjects from (from + count)
                 ++ slice mObjects to (size mObjects)).
Proof.
  intros Hc Hsep Hf Hfc Ht.
  destruct (decide (to ≤ size mObjects)) as [Hin|Hout].
  - destruct (moveObjects_in_range mObjects from to count Hf Hc Hfc
                (conj Ht Hin)) as [Hback Hforw].
    destruct (decide (to ≤ from)) as [Hle|Hgt]; [by apply Hback|].
    apply Hforw. lia.
  - rewrite decide_False by lia.
    rewrite (slice_beyond mObjects (from + count) to) by lia.
    rewrite (slice_empty mObjects to (size mObjects)) by lia.
    rewrite app_nil_r.
    pose proof (moveObjects_beyond (slice mObjects 0 from)
                  (slice mObjects from (from + count))
                  (slice mObjects (from + count) (size mObjects)) to) as H.
    rewrite <- !slice_app in H by lia.
    rewrite slice_all in H.
    rewrite !slice_length in H by lia.
    replace (Z.of_nat (Z.to_nat (from - 0))) with from in H by lia.
    replace (Z.of_nat (Z.to_nat (from + count - from))) with count in H by lia.
    apply H. unfold size in *. lia.
Qed.

(** The list [moveObjects_result] gives is a block move in the sense of
    the claim. *)
Lemma moveObjects_result_as_claimed (mObjects : list ptr) from to count :
  0 ≤ count → to ≤ from ∨ from + count ≤ to →
  0 ≤ from → from + count ≤ size mObjects → 0 ≤ to →
  moveObjects_as_claimed mObjects from count
    (if decide (to ≤ from)
     then slice mObjects 0 to ++ slice mObjects from (from + count)
            ++ slice mObjects to from
            ++ slice mObjects (from + count) (size mObjects)
     else slice mObjects 0 from ++ slice mObjects (from + count) to
            ++ slice mObjects from (from + count)
            ++ slice mObjects to (size mObjects)).
Proof.
  intros Hc Hsep Hf Hfc Ht. unfold moveObjects_as_claimed.
  destruct (decide (to ≤ from)) as [Hle|Hgt].
  - exists (slice mObjects 0 to),
           (slice mObjects to from
              ++ slice mObjects (from + count) (size mObjects)).
    split; [done|]. rewrite (assoc_L (++)). by rewrite <- slice_app by lia.
  - exists (slice mObjects 0 from ++ slice mObjects (from + count) to),
           (slice mObjects to (size mObjects)).
    split; [by rewrite <- !(assoc_L (++))|].
    rewrite <- (assoc_L (++)). f_equal.
    destruct (decide (to ≤ size mObjects)) as [Hin|Hout].
    + by rewrite <- slice_app by lia.
    + rewrite (slice_beyond mObjects (from + count) to) by lia.
      rewrite (slice_empty mObjects to (size mObjects)) by lia.
      by rewrite app_nil_r.
Qed.

(** C8, amended.  Let [count >= 0] and [to <= from] or
    [to >= from + count].  When the block [[from, from + count)] lies
    inside the collection and [to] is not negative, [moveObjects] returns
    with the block placed, in its own order, just ahead of the entity
    that was at [to] (at the end when [to] is the size or more), and the
    other entities keep their order: a block move as the claim words it.
    When [to] is [from] or [from + count], or [count] is zero, the
    collection is unchanged. *)
Theorem moveObjects_relocates (mObjects : list ptr) from to count :
  0 ≤ count → to ≤ from ∨ from + count ≤ to →
  (0 ≤ from → from + count ≤ size mObjects → 0 ≤ to →
   ∃ out,
     moveObjects mObjects from to count = Done out ∧
     out = (if decide (to ≤ from)
            then slice mObjects 0 to ++ slice mObjects from (from + count)
                   ++ slice mObjects to from
                   ++ slice mObjects (from + count) (size mObjects)
            else slice mObjects 0 from ++ slice mObjects (from + count) to
                   ++ slice mObjects from (from + count)
                   ++ slice mObjects to (size mObjects)) ∧
     moveObjects_as_claimed mObjects from count out)
  ∧ (to = from ∨ to = from + count ∨ count = 0 →
     moveObjects mObjects from to count = Done mObjects).
Proof.
  intros Hc Hsep. split.
  - intros Hf Hfc Ht. eexists. split; [by apply moveObjects_result|].
    split; [done|]. by apply moveObjects_result_as_claimed.
  - intros Hnoop. unfold moveObjects.
    assert ((count >=? 0) = true) as -> by zbool.
    assert (((to <=? from) || (to >=? from + count)) = true) as ->.
    { apply orb_true_iff. destruct Hsep; [left|right]; zbool. }
    simpl.
    assert (((to =? from) || (to =? from + count) || (count =? 0)) = true)
      as ->; [|done].
    rewrite !orb_true_iff. destruct Hnoop as [?|[?|?]];
      [left; left|left; right|right]; zbool.
Qed.

Lemma moveObjects_relocates_witness :
  ∃ out,
    moveObjects [1; 2; 3; 4; 5; 6] 1 5 2 = Done out ∧
    out = [1; 4; 5; 2; 3; 6] ∧
    moveObjects_as_claimed [1; 2; 3; 4; 5; 6] 1 2 out.
Proof.
  refine (proj1 (moveObjects_relocates [1; 2; 3; 4; 5; 6] 1 5 2 _ _) _ _ _).
  - lia.
  - right. lia.
  - lia.
  - vm_compute. discriminate.
  - lia.
Defined.

(** C8, as the claim has it, fails on [[1; 2; 3; 4]] when the block
    [[2; 3; 4]] is moved to the destination [-1], which the stated
    preconditions admit: the first two inserts both prepend, so the block
    comes out as [3; 4; 2], not in its own order.  And a block that
    reaches past the end of the collection is not relocated at all: the
    range to erase is not a range of the list. *)
Lemma moveObjects_as_claimed_counterexample :
  (0 ≤ 3 ∧ (-1 ≤ 1 ∨ 1 + 3 ≤ -1) ∧
   moveObjects [1; 2; 3; 4] 1 (-1) 3 = Done [3; 4; 2; 1] ∧
   ¬ moveObjects_as_claimed [1; 2; 3; 4] 1 3 [3; 4; 2; 1])
  ∧ (0 ≤ 2 ∧ (0 ≤ 3 ∨ 3 + 2 ≤ 0) ∧
     moveObjects [1; 2; 3; 4] 3 0 2 = Fault).
Proof.
  split.
  - split; [lia|]. split; [left; lia|]. split; [reflexivity|].
    intros (before & after & Hout & Hrest).
    change (slice [1; 2; 3; 4] 1 (1 + 3)) with [2; 3; 4] in Hout.
    change (slice [1; 2; 3; 4] 0 1 ++ slice [1; 2; 3; 4] (1 + 3)
              (size [1; 2; 3; 4])) with [1] in Hrest.
    destruct before as [|b before]; simpl in *; [discriminate|].
    destruct before as [|b' before]; simpl in *; [discriminate|].
    injection Hrest as _ Hrest. by destruct before.
  - split; [lia|]. split; [left; lia|]. reflexivity.
Qed.

(** ** C9: offsetting the entities *)

(** An entity whose centre is outside [bounds] is passed over. *)
Lemma offsetObjects_body_outside objectBounds positions object pos offset
    bounds wrapX wrapY :
  positions !! object = Some pos →
  QRectF_contains bounds (QRectF_center (objectBounds object pos)) = false →
  offsetObjects_body objectBounds positions object offset bounds wrapX wrapY
  = Done positions.
Proof.
  intros Hpos Hout. unfold offsetObjects_body. by rewrite Hpos, Hout.
Qed.

(** Entities whose centres are all outside [bounds] stay where they are. *)
Lemma offsetObjects_outside objectBounds positions mObjects offset bounds
    wrapX wrapY :
  (∀ object, object ∈ mObjects →
     ∃ pos, positions !! object = Some pos ∧
            QRectF_contains bounds (QRectF_center (objectBounds object pos))
            = false) →
  offsetObjects objectBounds positions mObjects offset bounds wrapX wrapY
  = Done positions.
Proof.
  induction mObjects as [|object rest IH]; intros Hall; simpl; [done|].
  destruct (Hall object) as (pos & Hpos & Hout); [by left|].
  rewrite (offsetObjects_body_outside _ _ _ pos) by done.
  simpl. apply IH. intros o Ho. apply Hall. by right.
Qed.

(** Without wrapping, the centre aimed at is the old one plus the
    offset. *)
Lemma offsetObjects_newCenter_no_wrap objectCenter offset bounds :
  offsetObjects_newCenter objectCenter offset bounds false false
  = QPointF_plus objectCenter offset.
Proof. done. Qed.

(** C9, on the code.  The example of the specification comes out as
    claimed: with bounds [[0, 0, 10, 10]] and both wraps, the entity
    centred at [(9, 9)] and offset by [(5, 5)] is aimed at [(4, 4)] and
    lands centred there.  But the wrapped coordinate is not always below
    [left + width]: for the entity centred at [(0, 5)] and the offset
    [(-1e-17, 0)], [fmod] yields [-1e-17], the sum [width + nx] rounds to
    [width], and the entity is aimed at [(10, 5)] and lands centred
    there, on [left + width].  The same happens away from the edge:
    from [(3, 5)] the offset [(-3.0000000000000004, 0)] ends on
    [(10, 5)] as well. *)
Theorem offsetObjects_wrap_reaches_the_far_edge :
  let bounds := exampleRect 0 0 10 10 in
  let tiny := mkQPointF (qreal_of (-6490371073168535) (-109)) (qreal_of_int 0) in
  let back := mkQPointF (qreal_of (-6755399441055745) (-51)) (qreal_of_int 0) in
  (offsetObjects_newCenter (examplePoint 9 9) (examplePoint 5 5) bounds
     true true = examplePoint 4 4 ∧
   offsetObjects exampleBounds {[1 := examplePoint 8 8]} [1]
     (examplePoint 5 5) bounds true true = Done {[1 := examplePoint 3 3]} ∧
   QRectF_center (exampleBounds 1 (examplePoint 8 8)) = examplePoint 9 9 ∧
   QRectF_center (exampleBounds 1 (examplePoint 3 3)) = examplePoint 4 4)
  ∧ (QRectF_contains bounds (examplePoint 0 5) = true ∧
     offsetObjects_newCenter (examplePoint 0 5) tiny bounds true true
     = examplePoint 10 5 ∧
     qreal_add (QRectF_left bounds) (QRectF_width bounds) = qreal_of_int 10 ∧
     qreal_lt (qreal_of_int 10)
       (qreal_add (QRectF_left bounds) (QRectF_width bounds)) = false ∧
     offsetObjects exampleBounds {[1 := examplePoint (-1) 4]} [1]
       tiny bounds true true = Done {[1 := examplePoint 9 4]} ∧
     QRectF_center (exampleBounds 1 (examplePoint (-1) 4)) = examplePoint 0 5 ∧
     QRectF_center (exampleBounds 1 (examplePoint 9 4)) = examplePoint 10 5)
  ∧ (QRectF_contains bounds (examplePoint 3 5) = true ∧
     offsetObjects_newCenter (examplePoint 3 5) back bounds true true
     = examplePoint 10 5).
Proof.
  repeat split; vm_compute; reflexivity.
Qed.

(** ** C10: merging two collections *)

Lemma fresh_object_None h : objects h !! fresh (dom (objects h)) = None.
Proof. apply not_elem_of_dom, is_fresh. Qed.

Lemma fresh_layer_None h : layers h !! fresh (dom (layers h)) = None.
Proof. apply not_elem_of_dom, is_fresh. Qed.

Lemma withObjects_id T : withObjects T (mObjects T) = T.
Proof. by destruct T. Qed.

(** Adding an object that has no identity yet to a collection without a
    map: the object is appended and its back-reference set. *)
Lemma addObject_no_map h target T c o :
  layers h !! target = Some (ObjectGroupLayer T) → mMap T = None →
  objects h !! c = Some o →
  addObject h target c =
    Done (mkHeap
            (<[c := mkMapObject (mName o) (mId o) (Some target)]> (objects h))
            (<[target := ObjectGroupLayer (withObjects T (mObjects T ++ [c]))]>
               (layers h))
            (maps h)).
Proof.
  intros HT Hmap Ho. unfold addObject, getGroup. rewrite HT. simpl.
  unfold setObjectGroup, getObject, putGroup. simpl. rewrite Ho. simpl.
  unfold assignId, getGroup, putObject. simpl.
  rewrite lookup_insert_eq. simpl. by rewrite Hmap.
Qed.

Lemma addClones_spec (l : list ptr) : ∀ h target T,
  layers h !! target = Some (ObjectGroupLayer T) → mMap T = None →
  (∀ p, p ∈ l → is_Some (objects h !! p)) →
  ∃ h' cs,
    addClones h target l = Done h' ∧
    layers h' =
      <[target := ObjectGroupLayer (withObjects T (mObjects T ++ cs))]> (layers h) ∧
    maps h' = maps h ∧
    objects h ⊆ objects h' ∧
    (∀ c, c ∈ cs → objects h !! c = None) ∧
    length cs = length l ∧
    (∀ i p c, l !! i = Some p → cs !! i = Some c →
       ∃ o, objects h !! p = Some o ∧
            objects h' !! c = Some (mkMapObject (mName o) 0 (Some target))).
Proof.
  induction l as [|p l IH]; intros h target T HT Hmap Hlive.
  - exists h, []. simpl. split_and!; try done.
    + rewrite app_nil_r, withObjects_id. by rewrite insert_id.
    + intros c Hc. by apply elem_of_nil in Hc.
  - destruct (Hlive p) as [o Ho]; [by left|].
    simpl. unfold MapObject_clone, getObject. rewrite Ho. simpl.
    set (c := fresh (dom (objects h))).
    assert (objects h !! c = None) as Hc by apply fresh_object_None.
    rewrite (addObject_no_map _ target T c (mkMapObject (mName o) 0 None));
      [|done|done|by (simpl; rewrite lookup_insert_eq)].
    simpl. rewrite insert_insert_eq.
    set (h1 := mkHeap _ _ _).
    assert (objects h ⊆ objects h1) as Hsub by (by apply insert_subseteq).
    destruct (IH h1 target (withObjects T (mObjects T ++ [c])))
      as (h' & cs & Hrun & Hlayers & Hmaps & Hsub' & Hfresh & Hlen & Hcorr).
    { simpl. by rewrite lookup_insert_eq. }
    { done. }
    { intros q Hq. destruct (Hlive q) as [oq Hoq]; [by right|].
      exists oq. by eapply lookup_weaken. }
    exists h', (c :: cs). split_and!.
    + done.
    + rewrite Hlayers. simpl. rewrite insert_insert_eq.
      by rewrite <- app_assoc.
    + done.
    + by etrans.
    + intros c' [->|Hc']%elem_of_cons; [done|].
      apply Hfresh in Hc'. by eapply lookup_weaken_None.
    + simpl. by rewrite Hlen.
    + intros [|i] q c' Hq Hc'; simpl in Hq, Hc'.
      * injection Hq as <-. injection Hc' as <-. exists o. split; [done|].
        eapply lookup_weaken; [|done]. simpl. by rewrite lookup_insert_eq.
      * destruct (Hcorr i q c' Hq Hc') as (oq & Hoq & Hoc).
        exists oq. split; [|done].
        destruct (Hlive q) as [oq' Hoq'];
          [right; by eapply list_elem_of_lookup_2|].
        pose proof (lookup_weaken _ _ _ _ Hoq' Hsub) as Hoq''.
        congruence.
Qed.

(** [clone] allocates a collection and fills it with fresh copies of the
    entities, in order; nothing that was live is changed. *)
Lemma clone_spec h this A :
  layers h !! this = Some (ObjectGroupLayer A) →
  (∀ p, p ∈ mObjects A → is_Some (objects h !! p)) →
  ∃ h' c cs,
    clone h this = Done (h', c) ∧
    layers h !! c = None ∧
    layers h' =
      <[c := ObjectGroupLayer
               (mkObjectGroup (mLayerName A) (mX A) (mY A) (mWidth A)
                              (mHeight A) None cs (mColor A) (mDrawOrder A))]>
        (layers h) ∧
    maps h' = maps h ∧
    objects h ⊆ objects h' ∧
    (∀ c', c' ∈ cs → objects h !! c' = None) ∧
    length cs = length (mObjects A) ∧
    (∀ i p c', mObjects A !! i = Some p → cs !! i = Some c' →
       ∃ o, objects h !! p = Some o ∧
            objects h' !! c' = Some (mkMapObject (mName o) 0 (Some c))).
Proof.
  intros HA Hlive. unfold clone, getGroup. rewrite HA. simpl.
  unfold ObjectGroup_new.
  set (c := fresh (dom (layers h))).
  assert (layers h !! c = None) as Hc by apply fresh_layer_None.
  assert (c ≠ this) as Hne by congruence.
  set (G := mkObjectGroup _ _ _ _ _ None [] None TopDownOrder).
  unfold initializeClone, getGroup. simpl.
  rewrite lookup_insert_ne by done. rewrite HA. simpl.
  destruct (addClones_spec (mObjects A) (putGroup h c G) c G)
    as (h2 & cs & Hrun & Hlayers & Hmaps & Hsub & Hfresh & Hlen & Hcorr).
  { simpl. by rewrite lookup_insert_eq. }
  { done. }
  { done. }
  rewrite Hrun. simpl in *.
  unfold setColor, getGroup. rewrite Hlayers, lookup_insert_eq. simpl.
  unfold setDrawOrder, getGroup. simpl. rewrite lookup_insert_eq. simpl.
  eexists _, c, cs. split_and!; try done.
  unfold putGroup. simpl. rewrite Hlayers. by rewrite !insert_insert_eq.
Qed.

(** C10.  Let [this] and [other] be collections whose entities are live.
    Then [mergedWith] returns a new collection; [this] and [other] hold
    the same entities in the same order as before, each of their entities
    is as it was, back-reference included, and every entity of the merged
    collection is newly allocated, so it is no entity of [this] or
    [other]: it is a copy of the entity at the same place in [this]
    followed by [other], owned by the merged collection. *)
Theorem mergedWith_frame h this other A B :
  layers h !! this = Some (ObjectGroupLayer A) →
  layers h !! other = Some (ObjectGroupLayer B) →
  (∀ p, p ∈ mObjects A ++ mObjects B → is_Some (objects h !! p)) →
  ∃ h' merged M,
    mergedWith h this other = Done (h', merged) ∧
    layers h' !! merged = Some (ObjectGroupLayer M) ∧
    layers h' !! this = Some (ObjectGroupLayer A) ∧
    layers h' !! other = Some (ObjectGroupLayer B) ∧
    (∀ p, p ∈ mObjects A ++ mObjects B → objects h' !! p = objects h !! p) ∧
    (∀ c, c ∈ mObjects M →
       (c ∉ mObjects A) ∧ (c ∉ mObjects B) ∧ objects h !! c = None) ∧
    length (mObjects M) = length (mObjects A ++ mObjects B) ∧
    (∀ i p c, (mObjects A ++ mObjects B) !! i = Some p →
       mObjects M !! i = Some c →
       nameOf h' c = nameOf h p ∧
       mObjectGroup <$> objects h' !! c = Some (Some merged)).
Proof.
  intros HA HB Hlive.
  destruct (clone_spec h this A HA)
    as (h1 & c & csA & Hclone & Hc & Hlayers1 & Hmaps1 & Hsub1 & HfreshA
        & HlenA & HcorrA).
  { intros p Hp. apply Hlive, elem_of_app. by left. }
  assert (c ≠ this) as Hne1 by congruence.
  assert (c ≠ other) as Hne2 by congruence.
  set (G := mkObjectGroup (mLayerName A) (mX A) (mY A) (mWidth A) (mHeight A)
                          None csA (mColor A) (mDrawOrder A)) in *.
  destruct (addClones_spec (mObjects B) h1 c G)
    as (h2 & csB & Hrun & Hlayers2 & Hmaps2 & Hsub2 & HfreshB & HlenB & HcorrB).
  { rewrite Hlayers1. by rewrite lookup_insert_eq. }
  { done. }
  { intros p Hp. destruct (Hlive p) as [o Ho]; [apply elem_of_app; by right|].
    exists o. by eapply lookup_weaken. }
  assert (objects h ⊆ objects h2) as Hsub by (by etrans).
  assert (∀ c', c' ∈ csA ++ csB → objects h !! c' = None) as Hfresh.
  { intros c' [Hc'|Hc']%elem_of_app; [by apply HfreshA|].
    apply HfreshB in Hc'. by eapply lookup_weaken_None. }
  exists h2, c, (withObjects G (mObjects G ++ csB)).
  split_and!.
  - unfold mergedWith, canMergeWith. rewrite HB. simpl.
    rewrite Hclone. simpl. unfold getGroup.
    rewrite Hlayers1, lookup_insert_ne by done. rewrite HB. simpl.
    by rewrite Hrun.
  - rewrite Hlayers2. by rewrite lookup_insert_eq.
  - rewrite Hlayers2, Hlayers1. by rewrite !lookup_insert_ne.
  - rewrite Hlayers2, Hlayers1. by rewrite !lookup_insert_ne.
  - intros p Hp. destruct (Hlive p Hp) as [o Ho]. rewrite Ho.
    by eapply lookup_weaken.
  - simpl. intros c' Hc'. pose proof (Hfresh c' Hc') as Hnone.
    split_and!; [| |done].
    + intros Hin. destruct (Hlive c') as [o Ho]; [apply elem_of_app; by left|].
      congruence.
    + intros Hin. destruct (Hlive c') as [o Ho]; [apply elem_of_app; by right|].
      congruence.
  - simpl. rewrite !length_app. lia.
  - simpl. intros i p c' Hp Hc'.
    assert (∃ o, objects h !! p = Some o ∧
                 objects h2 !! c' = Some (mkMapObject (mName o) 0 (Some c)))
      as (o & Ho & Hoc).
    { apply lookup_app_Some in Hp as [Hp|[Hge Hp]];
        apply lookup_app_Some in Hc' as [Hc'|[Hge' Hc']].
      - destruct (HcorrA i p c' Hp Hc') as (o & Ho & Hoc).
        exists o. split; [done|]. by eapply lookup_weaken.
      - apply lookup_lt_Some in Hp. lia.
      - apply lookup_lt_Some in Hc'. lia.
      - rewrite HlenA in Hc'.
        destruct (HcorrB _ p c' Hp Hc') as (o & Ho & Hoc).
        exists o. split; [|done].
        destruct (Hlive p) as [o' Ho'];
          [apply elem_of_app; right; by eapply list_elem_of_lookup_2|].
        pose proof (lookup_weaken _ _ _ _ Ho' Hsub1). congruence. }
    unfold nameOf. by rewrite Ho, Hoc.
Qed.

Lemma mergedWith_frame_witness :
  ∃ h' merged M,
    mergedWith exampleHeap 100 101 = Done (h', merged) ∧
    layers h' !! merged = Some (ObjectGroupLayer M) ∧
    layers h' !! 100 =
      Some (ObjectGroupLayer
              (mkObjectGroup "A" 0 0 10 10 None [1; 2] (Some 255) IndexOrder)) ∧
    layers h' !! 101 =
      Some (ObjectGroupLayer
              (mkObjectGroup "B" 0 0 10 10 None [4] None TopDownOrder)) ∧
    (∀ p, p ∈ [1; 2] ++ [4] → objects h' !! p = objects exampleHeap !! p) ∧
    (∀ c, c ∈ mObjects M →
       (c ∉ [1; 2]) ∧ (c ∉ [4]) ∧ objects exampleHeap !! c = None) ∧
    length (mObjects M) = length ([1; 2] ++ [4]) ∧
    (∀ i p c, ([1; 2] ++ [4]) !! i = Some p →
       mObjects M !! i = Some c →
       nameOf h' c = nameOf exampleHeap p ∧
       mObjectGroup <$> objects h' !! c = Some (Some merged)).
Proof.
  apply (mergedWith_frame exampleHeap 100 101
           (mkObjectGroup "A" 0 0 10 10 None [1; 2] (Some 255) IndexOrder)
           (mkObjectGroup "B" 0 0 10 10 None [4] None TopDownOrder)).
  - vm_compute. reflexivity.
  - vm_compute. reflexivity.
  - intros p Hp. simpl in Hp.
    repeat (apply elem_of_cons in Hp as [->|Hp]; [vm_compute; eauto|]).
    by apply elem_of_nil in Hp.
Defined.

(** * Further properties of the code *)

(** ** The sort as a whole *)

(** X1.  Given at least one step, [sort] returns exactly on lists of at
    most two handles, and then with the same handles in name order; on
    three handles or more it never returns. *)
Theorem sort_outcome (name : ptr → string) fuel (l : list ptr) :
  match sort name (S fuel) l with
  | Done l' => (length l ≤ 2)%nat ∧ l' ≡ₚ l ∧ sortedByName name l'
  | _ => (3 ≤ length l)%nat
  end.
Proof.
  destruct (le_lt_dec (length l) 2) as [Hsmall|Hbig].
  - destruct (sort_small name fuel l Hsmall) as (l' & -> & Hperm & Hsorted).
    done.
  - destruct (sort name (S fuel) l) as [l'| |] eqn:E; [|lia..].
    exfalso. apply (sort_never_returns name (S fuel) l); [lia|].
    by exists l'.
Qed.

(** ** [reorder] as a partition step *)

Lemma slice_middle (P L R : list ptr) b p :
  Z.of_nat (length P) = b → Z.of_nat (length L) = p - b →
  slice (P ++ L ++ R) b p = L.
Proof.
  intros HP HL. unfold slice.
  rewrite drop_app_length' by lia. by rewrite take_app_length' by lia.
Qed.

Lemma reorder_excise_absent (name : ptr → string) (r pre suf : list ptr)
    pivot end_ :
  pivot ∉ r →
  reorder_excise (length r) (pre ++ r ++ suf) pivot (Z.of_nat (length pre)) end_
  = Done (pre ++ r ++ suf, end_).
Proof.
  revert pre. induction r as [|x r IH]; intros pre Hnot; simpl; [done|].
  rewrite vget_middle. simpl. unfold equals.
  apply not_elem_of_cons in Hnot as [Hne Hnot].
  assert ((x =? pivot) = false) as -> by zbool.
  specialize (IH (pre ++ [x]) Hnot).
  rewrite length_app in IH. simpl in IH.
  replace (Z.of_nat (length pre) + 1) with (Z.of_nat (length pre + 1)) by lia.
  by rewrite !snoc_app in IH.
Qed.

(** The vector [reorder] builds, read off the indices of the call. *)
Lemma reorder_in_range (name : ptr → string) vec pivot begin end_ :
  0 ≤ begin → begin ≤ end_ → end_ ≤ size vec →
  pivot ∈ slice vec begin end_ →
  ∃ r1 r2,
    vec = take (Z.to_nat begin) vec ++ (r1 ++ pivot :: r2)
            ++ drop (Z.to_nat end_) vec ∧
    length (r1 ++ pivot :: r2) = Z.to_nat (end_ - begin) ∧
    reorder name vec pivot begin end_ =
      Done (reverse (take (Z.to_nat begin) vec)
              ++ reverse (filter (notAbove name pivot) (r1 ++ r2))
              ++ pivot :: filter (λ x, ¬ notAbove name pivot x) (r1 ++ r2)
              ++ drop (Z.to_nat end_) vec,
            begin + Z.of_nat (length (filter (notAbove name pivot) (r1 ++ r2)))).
Proof.
  intros Hb Hbe He Hin. unfold size in He.
  apply list_elem_of_split_l in Hin as (r1 & r2 & Hslice & Hnot).
  exists r1, r2.
  assert (vec = take (Z.to_nat begin) vec ++ (r1 ++ pivot :: r2)
                  ++ drop (Z.to_nat end_) vec) as Hvec.
  { rewrite <- Hslice. unfold slice.
    rewrite <- (take_drop (Z.to_nat begin) vec) at 1. f_equal.
    rewrite <- (take_drop (Z.to_nat (end_ - begin))
                  (drop (Z.to_nat begin) vec)) at 1.
    f_equal. rewrite drop_drop. f_equal. lia. }
  assert (length (take (Z.to_nat begin) vec) = Z.to_nat begin) as Hlen
    by (rewrite length_take; lia).
  assert (length (r1 ++ pivot :: r2) = Z.to_nat (end_ - begin)) as Hlen2.
  { rewrite <- Hslice. unfold slice. rewrite length_take, length_drop. lia. }
  split; [done|]. split; [done|].
  pose proof (reorder_exact name (take (Z.to_nat begin) vec) r1 r2
                (drop (Z.to_nat end_) vec) pivot Hnot) as Hex.
  simpl in Hex. rewrite <- Hvec in Hex.
  rewrite Hlen, Hlen2 in Hex.
  replace (Z.of_nat (Z.to_nat begin)) with begin in Hex by lia.
  replace (Z.of_nat (Z.to_nat begin + Z.to_nat (end_ - begin)))
    with end_ in Hex by lia.
  exact Hex.
Qed.

(** X2.  On a range inside the vector that holds the pivot, [reorder]
    returns a permutation of the vector and the index [p] of the pivot in
    it, inside the range: the handles of the range ahead of [p] have names
    that do not exceed the pivot's, those behind [p] have names that
    exceed it, and everything from [end] on is as before. *)
Theorem reorder_is_a_partition (name : ptr → string) vec pivot begin end_ :
  0 ≤ begin → begin ≤ end_ → end_ ≤ size vec →
  pivot ∈ slice vec begin end_ →
  ∃ out p,
    reorder name vec pivot begin end_ = Done (out, p) ∧
    out ≡ₚ vec ∧
    begin ≤ p < end_ ∧
    out !! Z.to_nat p = Some pivot ∧
    Forall (notAbove name pivot) (slice out begin p) ∧
    Forall (λ x, ¬ notAbove name pivot x) (slice out (p + 1) end_) ∧
    drop (Z.to_nat end_) out = drop (Z.to_nat end_) vec.
Proof.
  intros Hb Hbe He Hin.
  destruct (reorder_in_range name vec pivot begin end_ Hb Hbe He Hin)
    as (r1 & r2 & Hvec & Hrange & Hrun).
  set (le := filter (notAbove name pivot) (r1 ++ r2)) in *.
  set (gt := filter (λ x, ¬ notAbove name pivot x) (r1 ++ r2)) in *.
  set (pre := take (Z.to_nat begin) vec) in *.
  set (suf := drop (Z.to_nat end_) vec) in *.
  assert (length pre = Z.to_nat begin) as Hpre
    by (unfold pre, size in *; rewrite length_take; lia).
  assert (le ++ gt ≡ₚ r1 ++ r2) as Hsplit by apply filter_app_complement.
  assert (length le + length gt = length (r1 ++ r2))%nat as Hcount
    by (by rewrite <- length_app, Hsplit).
  rewrite !length_app in Hrange, Hcount. simpl in Hrange.
  eexists _, _. split; [exact Hrun|]. split_and!.
  - rewrite Hvec at 1. rewrite !reverse_Permutation. f_equiv.
    rewrite <- (Permutation_middle le (gt ++ suf) pivot).
    rewrite (assoc_L (++) le gt suf), Hsplit.
    by rewrite <- (Permutation_middle r1 r2 pivot).
  - lia.
  - lia.
  - rewrite (assoc_L (++) (reverse pre)).
    replace (Z.to_nat (begin + Z.of_nat (length le)))
      with (length (reverse pre ++ reverse le))
      by (rewrite length_app, !length_reverse; lia).
    by apply list_lookup_middle.
  - rewrite slice_middle; [|rewrite length_reverse; lia..].
    apply Forall_reverse, Forall_forall. intros x Hx.
    by apply list_elem_of_filter in Hx as [Hx _].
  - replace (reverse pre ++ reverse le ++ pivot :: gt ++ suf)
      with ((reverse pre ++ reverse le ++ [pivot]) ++ gt ++ suf)
      by (by rewrite <- !app_assoc).
    rewrite slice_middle;
      [|rewrite ?length_app, ?length_reverse; simpl; lia..].
    apply Forall_forall. intros x Hx.
    by apply list_elem_of_filter in Hx as [Hx _].
  - replace (reverse pre ++ reverse le ++ pivot :: gt ++ suf)
      with ((reverse pre ++ reverse le ++ pivot :: gt) ++ suf)
      by (by rewrite <- !app_assoc).
    apply drop_app_length'.
    rewrite !length_app, !length_reverse. simpl. lia.
Qed.

Lemma reorder_is_a_partition_witness :
  ∃ out p,
    reorder exampleName [6; 5; 3; 2; 1; 4] 2 2 6 = Done (out, p) ∧
    out ≡ₚ [6; 5; 3; 2; 1; 4] ∧
    2 ≤ p < 6 ∧
    out !! Z.to_nat p = Some 2 ∧
    Forall (notAbove exampleName 2) (slice out 2 p) ∧
    Forall (λ x, ¬ notAbove exampleName 2 x) (slice out (p + 1) 6) ∧
    drop (Z.to_nat 6) out = drop (Z.to_nat 6) [6; 5; 3; 2; 1; 4].
Proof.
  apply (reorder_is_a_partition exampleName [6; 5; 3; 2; 1; 4] 2 2 6).
  - lia.
  - lia.
  - vm_compute. discriminate.
  - apply (bool_decide_unpack _). vm_compute. exact I.
Defined.

Lemma reorder_exact_absent (name : ptr → string) (pre r suf : list ptr) pivot :
  pivot ∉ r →
  reorder name (pre ++ r ++ suf) pivot (Z.of_nat (length pre))
          (Z.of_nat (length pre + length r))
  = Done (reverse pre ++ reverse (filter (notAbove name pivot) r)
            ++ pivot :: filter (λ x, ¬ notAbove name pivot x) r ++ suf,
          Z.of_nat (length pre)
          + Z.of_nat (length (filter (notAbove name pivot) r))).
Proof.
  intros Hnot. unfold reorder.
  replace (Z.to_nat (Z.of_nat (length pre + length r) - Z.of_nat (length pre)))
    with (length r) by lia.
  rewrite (reorder_excise_absent name) by done. simpl.
  rewrite Nat2Z.id.
  pose proof (reorder_prefix_spec pre [] (r ++ suf) [pivot]) as Hpre.
  change (Z.of_nat (length [])) with 0 in Hpre. simpl in Hpre.
  rewrite Hpre. simpl. clear Hpre.
  replace (Z.to_nat (Z.of_nat (length pre + length r) - Z.of_nat (length pre)))
    with (length r) by lia.
  pose proof (reorder_scan_spec name r pre suf (reverse pre) [pivot] pivot
                (Z.of_nat (length pre))) as Hscan.
  rewrite length_reverse in Hscan. rewrite Hscan. simpl. clear Hscan.
  replace (Z.to_nat (size (pre ++ r ++ suf) - Z.of_nat (length pre + length r)))
    with (length suf) by (unfold size; rewrite !length_app; lia).
  replace (Z.of_nat (length pre + length r))
    with (Z.of_nat (length (pre ++ r))) by (by rewrite length_app).
  pose proof (reorder_suffix_spec suf (pre ++ r)) as Hsuf.
  rewrite <- !app_assoc in Hsuf. rewrite Hsuf. simpl.
  by rewrite <- !app_assoc.
Qed.

(** X3.  A defect of [reorder]: it does not check that its search found
    the pivot.  When no handle of the range is the pivot, it takes nothing
    out and still puts the pivot in: the vector it returns is one handle
    longer than the vector it was given and holds the pivot once more, at
    the index it returns.  The sort makes such calls, on the empty ranges
    that [introSort] hands on (see [sort_calls_reorder_without_the_pivot]
    below). *)
Theorem reorder_without_the_pivot (name : ptr → string) vec pivot begin end_ :
  0 ≤ begin → begin ≤ end_ → end_ ≤ size vec →
  pivot ∉ slice vec begin end_ →
  ∃ out p,
    reorder name vec pivot begin end_ = Done (out, p) ∧
    out ≡ₚ pivot :: vec ∧
    begin ≤ p ≤ end_ ∧
    out !! Z.to_nat p = Some pivot.
Proof.
  intros Hb Hbe He Hnot. unfold size in He.
  set (pre := take (Z.to_nat begin) vec).
  set (r := slice vec begin end_) in *.
  set (suf := drop (Z.to_nat end_) vec).
  assert (vec = pre ++ r ++ suf) as Hvec.
  { unfold pre, r, suf, slice.
    rewrite <- (take_drop (Z.to_nat begin) vec) at 1. f_equal.
    rewrite <- (take_drop (Z.to_nat (end_ - begin))
                  (drop (Z.to_nat begin) vec)) at 1.
    f_equal. rewrite drop_drop. f_equal. lia. }
  assert (length pre = Z.to_nat begin) as Hpre
    by (unfold pre; rewrite length_take; lia).
  assert (length r = Z.to_nat (end_ - begin)) as Hr
    by (unfold r; apply slice_length; unfold size; lia).
  pose proof (reorder_exact_absent name pre r suf pivot Hnot) as Hrun.
  rewrite <- Hvec, Hpre, Hr in Hrun.
  replace (Z.of_nat (Z.to_nat begin)) with begin in Hrun by lia.
  replace (Z.of_nat (Z.to_nat begin + Z.to_nat (end_ - begin)))
    with end_ in Hrun by lia.
  set (le := filter (notAbove name pivot) r) in *.
  set (gt := filter (λ x, ¬ notAbove name pivot x) r) in *.
  assert (le ++ gt ≡ₚ r) as Hsplit by apply filter_app_complement.
  assert (length le + length gt = length r)%nat as Hcount
    by (by rewrite <- length_app, Hsplit).
  eexists _, _. split; [exact Hrun|]. split_and!.
  - rewrite Hvec at 1. rewrite !reverse_Permutation.
    rewrite <- (Permutation_middle le (gt ++ suf) pivot).
    rewrite <- (Permutation_middle pre _ pivot). f_equiv. f_equiv.
    by rewrite (assoc_L (++) le gt suf), Hsplit.
  - lia.
  - lia.
  - rewrite (assoc_L (++) (reverse pre)).
    replace (Z.to_nat (begin + Z.of_nat (length le)))
      with (length (reverse pre ++ reverse le))
      by (rewrite length_app, !length_reverse; lia).
    by apply list_lookup_middle.
Qed.

Lemma reorder_without_the_pivot_witness :
  ∃ out p,
    reorder exampleName [10; 10; 8; 8] 8 2 2 = Done (out, p) ∧
    out ≡ₚ 8 :: [10; 10; 8; 8] ∧
    2 ≤ p ≤ 2 ∧
    out !! Z.to_nat p = Some 8.
Proof.
  apply (reorder_without_the_pivot exampleName [10; 10; 8; 8] 8 2 2).
  - lia.
  - lia.
  - vm_compute. discriminate.
  - apply (bool_decide_unpack _). vm_compute. exact I.
Defined.

(** The sort reaches the call of the witness.  On four entities of one
    name (the handles [7] to [10] of the examples have the empty name)
    the depth bound is 4 and the divisions end at 3, 2, 1 and 0; the two
    leaves [[0, 0)] and [[1, 1)] return, and [introSort] then divides the
    empty range [[2, 2)]: the median step reads its pivot from slot 2,
    outside the range, and [reorder] lengthens the vector to five
    handles, three of them the handle [8]. *)
Lemma sort_calls_reorder_without_the_pivot :
  Z.log2 (size [7; 8; 9; 10]) * 2 = 4 ∧
  partition exampleName [7; 8; 9; 10] 0 4 = Done ([7; 8; 10; 9], 3) ∧
  partition exampleName [7; 8; 10; 9] 0 3 = Done ([10; 10; 8; 7], 2) ∧
  partition exampleName [10; 10; 8; 7] 0 2 = Done ([10; 10; 8; 10], 1) ∧
  partition exampleName [10; 10; 8; 10] 0 1 = Done ([10; 10; 8; 10], 0) ∧
  heapSort 10 [10; 10; 8; 10] 0 0 = Done [10; 10; 8; 10] ∧
  heapSort 10 [10; 10; 8; 10] 1 1 = Done [10; 10; 8; 10] ∧
  partition_select exampleName [10; 10; 8; 10] 2 2 = Done ([10; 10; 8; 8], 8) ∧
  reorder exampleName [10; 10; 8; 8] 8 2 2 = Done ([10; 10; 8; 8; 8], 2) ∧
  partition exampleName [10; 10; 8; 10] 2 2 = Done ([10; 10; 8; 8; 8], 2).
Proof. repeat split; vm_compute; reflexivity. Qed.

(** ** [partition] on the whole vector *)

(** Lookups through a chain of slot updates. *)
Ltac slot_lookups :=
  repeat first
    [ rewrite list_lookup_insert_eq by (rewrite ?length_insert; lia)
    | rewrite list_lookup_insert_ne by lia ].

(** The median-of-three step on the whole vector returns, with the same
    handles and the pivot among them. *)
Lemma partition_select_whole_perm (name : ptr → string) vec :
  3 ≤ size vec →
  ∃ vec' pivot,
    partition_select name vec 0 (size vec) = Done (vec', pivot) ∧
    vec' ≡ₚ vec ∧ pivot ∈ vec'.
Proof.
  intros Hsz. unfold partition_select.
  rewrite Z.sub_0_r, Z.add_0_l.
  assert (0 < size vec `quot` 2 < size vec - 1) as Hmid.
  { pose proof (Z.quot_div_nonneg (size vec) 2).
    pose proof (Z.div_mod (size vec) 2).
    pose proof (Z.mod_pos_bound (size vec) 2). lia. }
  destruct (vget_in_range vec 0) as [first Hfirst]; [lia|].
  destruct (vget_in_range vec (size vec - 1)) as [last Hlast]; [lia|].
  destruct (vget_in_range vec (size vec `quot` 2)) as [middle Hmiddle]; [lia|].
  rewrite Hfirst, Hlast, Hmiddle. simpl.
  apply vget_Done in Hfirst as [_ Hfirst].
  apply vget_Done in Hlast as [_ Hlast].
  apply vget_Done in Hmiddle as [_ Hmiddle].
  change (Z.to_nat 0) with 0%nat in Hfirst.
  unfold size in *.
  set (m := Z.to_nat (Z.of_nat (length vec) `quot` 2)) in *.
  set (n1 := Z.to_nat (Z.of_nat (length vec) - 1)) in *.
  assert (0 < m < n1 ∧ n1 < length vec)%nat as Hidx by (unfold m, n1; lia).
  destruct (QString_compare (name first) (name last) >=? 0);
    [destruct (QString_compare (name first) (name middle) >=? 0);
     [destruct (QString_compare (name middle) (name last) >=? 0)|]
    |destruct (QString_compare (name first) (name middle) <=? 0);
     [destruct (QString_compare (name middle) (name last) >=? 0)|]];
    repeat (rewrite vset_in_range
              by (unfold size; rewrite ?length_insert; lia);
            simpl);
    unfold size; rewrite ?length_insert;
    change (Z.to_nat 0) with 0%nat; fold m n1;
    eexists _, _; (split; [reflexivity|]).
  - split; [by apply Permutation_insert_swap|].
    apply (list_elem_of_lookup_2 _ m). by slot_lookups.
  - split.
    + rewrite <- (list_insert_insert_eq _ m last first).
      etrans; [apply Permutation_insert_swap; by slot_lookups|].
      by apply Permutation_insert_swap.
    + apply (list_elem_of_lookup_2 _ m). by slot_lookups.
  - split.
    + rewrite (list_insert_insert_ne _ n1 m) by lia.
      rewrite <- (list_insert_insert_eq _ n1 middle first).
      rewrite <- (list_insert_insert_ne _ n1 m) by lia.
      etrans; [apply Permutation_insert_swap; by slot_lookups|].
      by apply Permutation_insert_swap.
    + apply (list_elem_of_lookup_2 _ m). by slot_lookups.
  - split; [by apply Permutation_insert_swap|].
    apply (list_elem_of_lookup_2 _ m). by slot_lookups.
  - split; [done|]. by apply (list_elem_of_lookup_2 _ m).
  - split; [by apply Permutation_insert_swap|].
    apply (list_elem_of_lookup_2 _ m). by slot_lookups.
Qed.

(** X4.  On the whole of a vector of three handles or more, as [sort]
    first calls it, [partition] returns a permutation of the vector and
    the index [p] of the pivot in it: the names ahead of [p] do not exceed
    the pivot's and the names behind [p] exceed it. *)
Theorem partition_of_the_whole_vector (name : ptr → string) vec :
  3 ≤ size vec →
  ∃ out p pivot,
    partition name vec 0 (size vec) = Done (out, p) ∧
    out ≡ₚ vec ∧
    0 ≤ p < size vec ∧
    out !! Z.to_nat p = Some pivot ∧
    Forall (notAbove name pivot) (slice out 0 p) ∧
    Forall (λ x, ¬ notAbove name pivot x) (slice out (p + 1) (size vec)).
Proof.
  intros Hsz.
  destruct (partition_select_whole_perm name vec Hsz)
    as (vec' & pivot & Hsel & Hperm & Hin).
  assert (size vec' = size vec) as Hsize
    by (unfold size; by rewrite (Permutation_length Hperm)).
  destruct (reorder_in_range name vec' pivot 0 (size vec))
    as (r1 & r2 & Hvec & Hrange & Hrun); [lia..| |].
  { rewrite <- Hsize, slice_all. done. }
  rewrite drop_ge in Hrun, Hvec by (unfold size in *; lia).
  change (take (Z.to_nat 0) vec') with (@nil Z) in Hrun, Hvec.
  simpl in Hrun, Hvec. rewrite app_nil_r in Hvec.
  set (le := filter (notAbove name pivot) (r1 ++ r2)) in *.
  set (gt := filter (λ x, ¬ notAbove name pivot x) (r1 ++ r2)) in *.
  assert (le ++ gt ≡ₚ r1 ++ r2) as Hsplit by apply filter_app_complement.
  assert (length le + length gt = length (r1 ++ r2))%nat as Hcount
    by (by rewrite <- length_app, Hsplit).
  rewrite !length_app in Hrange, Hcount. simpl in Hrange.
  exists (reverse le ++ pivot :: gt ++ []), (Z.of_nat (length le)), pivot.
  split_and!.
  - unfold partition. rewrite Hsel. simpl. exact Hrun.
  - rewrite <- Hperm, Hvec, app_nil_r, reverse_Permutation.
    rewrite <- (Permutation_middle le gt pivot), Hsplit.
    by rewrite <- (Permutation_middle r1 r2 pivot).
  - lia.
  - lia.
  - rewrite Nat2Z.id.
    rewrite <- (length_reverse le). by apply list_lookup_middle.
  - pose proof (slice_middle [] (reverse le) (pivot :: gt ++ []) 0
                  (Z.of_nat (length le))) as Hs.
    simpl in Hs. rewrite Hs by (rewrite ?length_reverse; lia).
    apply Forall_reverse, Forall_forall. intros x Hx.
    by apply list_elem_of_filter in Hx as [Hx _].
  - pose proof (slice_middle (reverse le ++ [pivot]) gt []
                  (Z.of_nat (length le) + 1) (size vec)) as Hs.
    rewrite <- !app_assoc in Hs. simpl in Hs.
    rewrite Hs by (rewrite ?length_app, ?length_reverse; simpl; lia).
    apply Forall_forall. intros x Hx.
    by apply list_elem_of_filter in Hx as [Hx _].
Qed.

Lemma partition_of_the_whole_vector_witness :
  ∃ out p pivot,
    partition exampleName [3; 1; 2; 1] 0 (size [3; 1; 2; 1]) = Done (out, p) ∧
    out ≡ₚ [3; 1; 2; 1] ∧
    0 ≤ p < size [3; 1; 2; 1] ∧
    out !! Z.to_nat p = Some pivot ∧
    Forall (notAbove exampleName pivot) (slice out 0 p) ∧
    Forall (λ x, ¬ notAbove exampleName pivot x)
           (slice out (p + 1) (size [3; 1; 2; 1])).
Proof.
  apply (partition_of_the_whole_vector exampleName [3; 1; 2; 1]).
  vm_compute. discriminate.
Defined.

Lemma partition_select_median_witness :
  ∃ first middle last lo hi,
    vget [3; 2; 1; 4] 0 = Done first ∧
    vget [3; 2; 1; 4] (0 + Z.quot (4 - 0) 2) = Done middle ∧
    vget [3; 2; 1; 4] (4 - 1) = Done last ∧
    [lo; 3; hi] ≡ₚ [first; middle; last] ∧
    nameLe exampleName lo 3 ∧ nameLe exampleName 3 hi.
Proof.
  apply (partition_select_median exampleName [3; 2; 1; 4] 0 4 [1; 2; 3; 4] 3).
  reflexivity.
Defined.


(** ** The heap fallback, call by call *)

(** X7.  [siftDown] never moves a handle.  With its accesses in range,
    it runs for ever when a child of the root inside the range is held at
    a greater address than the root, and otherwise returns the vector at
    once, as it was given. *)
Theorem siftDown_returns_or_spins fuel vec siftBegin siftEnd :
  0 ≤ siftBegin → siftEnd < size vec →
  let greater child :=
    child ≤ siftEnd ∧
    ∃ a c, vec !! Z.to_nat siftBegin = Some a ∧
           vec !! Z.to_nat child = Some c ∧ a < c in
  (greater (siftBegin * 2 + 1) ∨ greater (siftBegin * 2 + 1 + 1) →
   siftDown fuel vec siftBegin siftEnd = OutOfFuel) ∧
  (¬ (greater (siftBegin * 2 + 1) ∨ greater (siftBegin * 2 + 1 + 1)) →
   siftDown (S fuel) vec siftBegin siftEnd = Done vec).
Proof.
  intros Hb He greater. unfold siftDown. split.
  - intros Hgreater. induction fuel as [|fuel IH]; simpl; [done|].
    assert (siftBegin * 2 + 1 ≤ siftEnd) as Hchild.
    { destruct Hgreater as [[H _]|[H _]]; lia. }
    assert ((siftBegin * 2 + 1 <=? siftEnd) = true) as -> by zbool.
    destruct (vget_in_range vec siftBegin) as [a Ha]; [lia|].
    destruct (vget_in_range vec (siftBegin * 2 + 1)) as [c Hc]; [lia|].
    rewrite Ha, Hc. simpl.
    apply vget_Done in Ha as [_ Ha]. apply vget_Done in Hc as [_ Hc].
    destruct (Z.ltb_spec a c) as [Hlt|Hge]; [done|].
    destruct Hgreater as [(_ & a' & c' & Ha' & Hc' & Hlt)
                         |(Hle & a' & c' & Ha' & Hc' & Hlt)];
      assert (a' = a) as -> by congruence.
    { assert (c' = c) as -> by congruence. lia. }
    assert ((siftBegin * 2 + 1 + 1 <=? siftEnd) = true) as -> by zbool.
    assert (vget vec (siftBegin * 2 + 1 + 1) = Done c') as ->
      by (apply vget_Done; split; [lia|done]).
    simpl.
    by assert ((a <? c') = true) as -> by zbool.
  - intros Hnone. simpl.
    destruct (Z.leb_spec (siftBegin * 2 + 1) siftEnd) as [Hchild|]; [|done].
    destruct (vget_in_range vec siftBegin) as [a Ha]; [lia|].
    destruct (vget_in_range vec (siftBegin * 2 + 1)) as [c Hc]; [lia|].
    rewrite Ha, Hc. simpl.
    apply vget_Done in Ha as [_ Ha]. apply vget_Done in Hc as [_ Hc].
    destruct (Z.ltb_spec a c) as [Hlt|Hge].
    { exfalso. apply Hnone. left. split; [done|]. by exists a, c. }
    destruct (Z.leb_spec (siftBegin * 2 + 1 + 1) siftEnd) as [Hchild2|]; simpl.
    + destruct (vget_in_range vec (siftBegin * 2 + 1 + 1)) as [c' Hc'];
        [lia|].
      rewrite Hc'. simpl. apply vget_Done in Hc' as [_ Hc'].
      destruct (Z.ltb_spec a c') as [Hlt|Hge'].
      { exfalso. apply Hnone. right. split; [done|]. by exists a, c'. }
      by rewrite Z.eqb_refl.
    + by rewrite Z.eqb_refl.
Qed.

Lemma siftDown_returns_or_spins_witness :
  let greater child :=
    child ≤ 2 ∧
    ∃ a c, [4; 5; 6] !! Z.to_nat 0 = Some a ∧
           [4; 5; 6] !! Z.to_nat child = Some c ∧ a < c in
  (greater (0 * 2 + 1) ∨ greater (0 * 2 + 1 + 1) →
   siftDown 100 [4; 5; 6] 0 2 = OutOfFuel) ∧
  (¬ (greater (0 * 2 + 1) ∨ greater (0 * 2 + 1 + 1)) →
   siftDown (S 100) [4; 5; 6] 0 2 = Done [4; 5; 6]).
Proof.
  apply (siftDown_returns_or_spins 100 [4; 5; 6] 0 2).
  - lia.
  - vm_compute. reflexivity.
Defined.

(** X8.  Whether [heapSort] returns depends on [end] alone, not on the
    size of the range: it returns, leaving the vector as it was, exactly
    when [end <= 1]; from [end = 2] on it never returns, even on a range of
    one handle or none. *)
Theorem heapSort_returns_iff fuel vec begin end_ :
  0 ≤ begin →
  (end_ ≤ 1 → heapSort (S (S fuel)) vec begin end_ = Done vec) ∧
  (2 ≤ end_ → ¬ returns (heapSort fuel vec begin end_)).
Proof.
  intros Hb. split; [|apply heapSort_never_returns].
  intros He. unfold heapSort, heapify.
  assert (heapify_loop (S (S fuel)) vec begin end_
            (begin + (end_ - 2) `quot` 2) = Done vec) as ->.
  { assert ((end_ - 2) `quot` 2 ≤ 0) as Hq.
    { destruct (decide (end_ = 1)) as [->|]; [done|].
      apply Z.quot_le_upper_bound; lia. }
    cbn [heapify_loop].
    destruct (Z.geb_spec (begin + (end_ - 2) `quot` 2) begin) as [Hge|]; [|done].
    unfold siftDown. cbn [siftDown_loop].
    assert ((begin * 2 + 1 <=? end_ - 1) = false) as -> by zbool.
    simpl.
    assert ((begin + (end_ - 2) `quot` 2 - 1 >=? begin) = false) as ->; [|done].
    rewrite Z.geb_leb. apply Z.leb_gt. lia. }
  simpl. by assert ((end_ - 1 >? 0) = false) as -> by zbool.
Qed.

Lemma heapSort_returns_iff_witness :
  (1 ≤ 1 → heapSort (S (S 0)) [4; 5; 6] 0 1 = Done [4; 5; 6]) ∧
  (2 ≤ 1 → ¬ returns (heapSort 0 [4; 5; 6] 0 1)).
Proof.
  apply (heapSort_returns_iff 0 [4; 5; 6] 0 1). lia.
Defined.

(** ** Adding and removing entities *)

Lemma QList_indexOf_from_spec (l : list ptr) x i :
  ((x ∉ l) ∧ QList_indexOf_from l x i = -1) ∨
  (∃ k, l !! k = Some x ∧ (x ∉ take k l) ∧
        QList_indexOf_from l x i = i + Z.of_nat k).
Proof.
  revert i. induction l as [|y l IH]; intros i; simpl.
  - left. split; [apply not_elem_of_nil|done].
  - destruct (Z.eqb_spec y x) as [->|Hne].
    + right. exists 0%nat. simpl. split_and!; [done|apply not_elem_of_nil|lia].
    + destruct (IH (i + 1)) as [[Hnot ->]|(k & Hk & Hfirst & ->)].
      * left. split; [|done]. apply not_elem_of_cons. split; [congruence|done].
      * right. exists (S k). simpl. split_and!; [done| |lia].
        apply not_elem_of_cons. split; [congruence|done].
Qed.

(** What [addObject] leaves behind when no identity is handed out. *)
Lemma addObject_keeps_id h this object g o :
  layers h !! this = Some (ObjectGroupLayer g) →
  objects h !! object = Some o →
  mMap g = None ∨ mId o ≠ 0 →
  addObject h this object =
    Done (mkHeap
            (<[object := mkMapObject (mName o) (mId o) (Some this)]> (objects h))
            (<[this := ObjectGroupLayer (withObjects g (mObjects g ++ [object]))]>
               (layers h))
            (maps h)).
Proof.
  intros Hg Ho Hid. unfold addObject, getGroup. rewrite Hg. simpl.
  unfold setObjectGroup, getObject, putGroup. simpl. rewrite Ho. simpl.
  unfold assignId, getGroup, putObject. simpl.
  rewrite lookup_insert_eq. simpl.
  destruct (mMap g) as [m|]; [|done].
  unfold getObject. simpl. rewrite lookup_insert_eq. simpl.
  destruct Hid as [?|Hid]; [done|].
  by assert ((mId o =? 0) = false) as -> by zbool.
Qed.

(** What [addObject] leaves behind when the map hands out an identity. *)
Lemma addObject_takes_id h this object g o m d :
  layers h !! this = Some (ObjectGroupLayer g) →
  objects h !! object = Some o →
  mMap g = Some m → mId o = 0 → maps h !! m = Some d →
  addObject h this object =
    Done (mkHeap
            (<[object := mkMapObject (mName o) (mNextObjectId d) (Some this)]>
               (objects h))
            (<[this := ObjectGroupLayer (withObjects g (mObjects g ++ [object]))]>
               (layers h))
            (<[m := mkMap (mNextObjectId d + 1)]> (maps h))).
Proof.
  intros Hg Ho Hm Hid Hd. unfold addObject, getGroup. rewrite Hg. simpl.
  unfold setObjectGroup, getObject, putGroup. simpl. rewrite Ho. simpl.
  unfold assignId, getGroup, putObject. simpl.
  rewrite lookup_insert_eq. simpl. rewrite Hm.
  unfold getObject. simpl. rewrite lookup_insert_eq. simpl. rewrite Hid. simpl.
  unfold takeNextObjectId. simpl. rewrite Hd. simpl.
  unfold setId, getObject. simpl. rewrite lookup_insert_eq. simpl.
  unfold putObject. simpl. by rewrite insert_insert_eq.
Qed.

(** X9.  [addObject] puts the entity at the end of the collection,
    whatever its name, and makes the collection its owner; the collection
    is then not empty.  No other entity and no other layer is touched.
    The entity keeps its identity, unless it has none (zero) and the
    collection belongs to a map: then it receives the next identity of the
    map, and the map moves on by one. *)
Theorem addObject_appends h this object g o :
  layers h !! this = Some (ObjectGroupLayer g) →
  objects h !! object = Some o →
  (∀ m, mMap g = Some m → mId o = 0 → is_Some (maps h !! m)) →
  ∃ h' g' o',
    addObject h this object = Done h' ∧
    layers h' !! this = Some (ObjectGroupLayer g') ∧
    mObjects g' = mObjects g ++ [object] ∧
    isEmpty h' this = Done false ∧
    objects h' !! object = Some o' ∧
    mName o' = mName o ∧ mObjectGroup o' = Some this ∧
    (∀ p, p ≠ object → objects h' !! p = objects h !! p) ∧
    (∀ q, q ≠ this → layers h' !! q = layers h !! q) ∧
    (mMap g = None ∨ mId o ≠ 0 → mId o' = mId o ∧ maps h' = maps h) ∧
    (∀ m d, mMap g = Some m → mId o = 0 → maps h !! m = Some d →
       mId o' = mNextObjectId d ∧
       maps h' = <[m := mkMap (mNextObjectId d + 1)]> (maps h)).
Proof.
  intros Hg Ho Hlive.
  assert (∀ l, bool_decide (l ++ [object] = []) = false) as Hne.
  { intros l. apply bool_decide_eq_false. by destruct l. }
  destruct (mMap g) as [m|] eqn:Hm; [destruct (decide (mId o = 0)) as [Hid|Hid]|].
  - destruct (Hlive m eq_refl Hid) as [d Hd].
    rewrite (addObject_takes_id h this object g o m d) by done.
    eexists _, _, _. split; [done|]. unfold isEmpty, getGroup. simpl.
    rewrite !lookup_insert_eq. simpl. rewrite Hne.
    split_and!; try done.
    + intros p Hp. by rewrite lookup_insert_ne.
    + intros q Hq. by rewrite lookup_insert_ne.
    + intros [?|?]; done.
    + intros m' d' [= <-] _ Hd'. by simplify_eq.
  - rewrite (addObject_keeps_id h this object g o) by (done || by right).
    eexists _, _, _. split; [done|]. unfold isEmpty, getGroup. simpl.
    rewrite !lookup_insert_eq. simpl. rewrite Hne.
    split_and!; try done.
    + intros p Hp. by rewrite lookup_insert_ne.
    + intros q Hq. by rewrite lookup_insert_ne.
  - rewrite (addObject_keeps_id h this object g o) by (done || by left).
    eexists _, _, _. split; [done|]. unfold isEmpty, getGroup. simpl.
    rewrite !lookup_insert_eq. simpl. rewrite Hne.
    split_and!; try done.
    + intros p Hp. by rewrite lookup_insert_ne.
    + intros q Hq. by rewrite lookup_insert_ne.
Qed.

Lemma addObject_appends_witness :
  ∃ h' g' o',
    addObject exampleHeap 100 3 = Done h' ∧
    layers h' !! 100 = Some (ObjectGroupLayer g') ∧
    mObjects g' = [1; 2] ++ [3] ∧
    isEmpty h' 100 = Done false ∧
    objects h' !! 3 = Some o' ∧
    mName o' = "c" ∧ mObjectGroup o' = Some 100 ∧
    (∀ p, p ≠ 3 → objects h' !! p = objects exampleHeap !! p) ∧
    (∀ q, q ≠ 100 → layers h' !! q = layers exampleHeap !! q) ∧
    (@None Z = None ∨ 0 ≠ 0 → mId o' = 0 ∧ maps h' = maps exampleHeap) ∧
    (∀ m d, @None Z = Some m → 0 = 0 → maps exampleHeap !! m = Some d →
       mId o' = mNextObjectId d ∧
       maps h' = <[m := mkMap (mNextObjectId d + 1)]> (maps exampleHeap)).
Proof.
  apply (addObject_appends exampleHeap 100 3
           (mkObjectGroup "A" 0 0 10 10 None [1; 2] (Some 255) IndexOrder)
           (mkMapObject "c" 0 None)).
  - vm_compute. reflexivity.
  - vm_compute. reflexivity.
  - simpl. discriminate.
Defined.

(** What [removeObject] leaves behind. *)
Lemma removeObject_run h this object g o k :
  layers h !! this = Some (ObjectGroupLayer g) →
  objects h !! object = Some o →
  mObjects g !! k = Some object → object ∉ take k (mObjects g) →
  removeObject h this object =
    Done (mkHeap
            (<[object := mkMapObject (mName o) (mId o) None]> (objects h))
            (<[this := ObjectGroupLayer (withObjects g (delete k (mObjects g)))]>
               (layers h))
            (maps h),
          Z.of_nat k).
Proof.
  intros Hg Ho Hk Hfirst. unfold removeObject, getGroup. rewrite Hg. simpl.
  unfold QList_indexOf.
  destruct (QList_indexOf_from_spec (mObjects g) object 0)
    as [[Hnot _]|(k' & Hk' & Hfirst' & ->)].
  { exfalso. apply Hnot. by eapply list_elem_of_lookup_2. }
  assert (k' = k) as ->.
  { destruct (Nat.lt_trichotomy k' k) as [Hlt|[?|Hlt]]; [|done|].
    - exfalso. apply Hfirst. apply (list_elem_of_lookup_2 _ k').
      by rewrite lookup_take_lt.
    - exfalso. apply Hfirst'. apply (list_elem_of_lookup_2 _ k).
      by rewrite lookup_take_lt. }
  assert ((0 + Z.of_nat k =? -1) = false) as -> by zbool.
  unfold QList_removeAt, inRange.
  apply lookup_lt_Some in Hk.
  assert (((0 <=? 0 + Z.of_nat k)
           && (0 + Z.of_nat k <? Z.of_nat (length (mObjects g)))) = true) as ->.
  { apply andb_true_iff. split; zbool. }
  unfold setObjectGroup, getObject, putGroup. simpl. rewrite Ho. simpl.
  rewrite Z.add_0_l, Nat2Z.id. done.
Qed.

(** X10.  [removeObject] faults on an entity that the collection does
    not hold.  Otherwise it returns the index of the first place that
    holds the entity, takes the entity out of that place, the other
    entities keeping their order, and clears the owner of the entity; no
    other entity and no other layer is touched. *)
Theorem removeObject_first_occurrence h this object g o :
  layers h !! this = Some (ObjectGroupLayer g) →
  objects h !! object = Some o →
  (object ∉ mObjects g → removeObject h this object = Fault) ∧
  (object ∈ mObjects g →
   ∃ h' k g',
     removeObject h this object = Done (h', Z.of_nat k) ∧
     mObjects g !! k = Some object ∧
     (∀ j, (j < k)%nat → mObjects g !! j ≠ Some object) ∧
     layers h' !! this = Some (ObjectGroupLayer g') ∧
     mObjects g' = take k (mObjects g) ++ drop (S k) (mObjects g) ∧
     objects h' !! object = Some (mkMapObject (mName o) (mId o) None) ∧
     (∀ p, p ≠ object → objects h' !! p = objects h !! p) ∧
     (∀ q, q ≠ this → layers h' !! q = layers h !! q)).
Proof.
  intros Hg Ho. split.
  - intros Hnot. unfold removeObject, getGroup. rewrite Hg. simpl.
    unfold QList_indexOf.
    destruct (QList_indexOf_from_spec (mObjects g) object 0)
      as [[_ ->]|(k & Hk & _)]; [done|].
    exfalso. apply Hnot. by eapply list_elem_of_lookup_2.
  - intros Hin.
    destruct (QList_indexOf_from_spec (mObjects g) object 0)
      as [[Hnot _]|(k & Hk & Hfirst & _)]; [done|].
    rewrite (removeObject_run h this object g o k) by done.
    eexists _, k, _. split; [done|]. simpl. rewrite !lookup_insert_eq.
    split_and!; try done.
    + intros j Hj Hobj. apply Hfirst. apply (list_elem_of_lookup_2 _ j).
      by rewrite lookup_take_lt.
    + simpl. apply delete_take_drop.
    + intros p Hp. by rewrite lookup_insert_ne.
    + intros q Hq. by rewrite lookup_insert_ne.
Qed.

Lemma removeObject_first_occurrence_witness :
  (2 ∉ [1; 2] → removeObject exampleHeap 100 2 = Fault) ∧
  (2 ∈ [1; 2] →
   ∃ h' k g',
     removeObject exampleHeap 100 2 = Done (h', Z.of_nat k) ∧
     [1; 2] !! k = Some 2 ∧
     (∀ j, (j < k)%nat → [1; 2] !! j ≠ Some 2) ∧
     layers h' !! 100 = Some (ObjectGroupLayer g') ∧
     mObjects g' = take k [1; 2] ++ drop (S k) [1; 2] ∧
     objects h' !! 2 = Some (mkMapObject "b" 2 None) ∧
     (∀ p, p ≠ 2 → objects h' !! p = objects exampleHeap !! p) ∧
     (∀ q, q ≠ 100 → layers h' !! q = layers exampleHeap !! q)).
Proof.
  apply (removeObject_first_occurrence exampleHeap 100 2
           (mkObjectGroup "A" 0 0 10 10 None [1; 2] (Some 255) IndexOrder)
           (mkMapObject "b" 2 (Some 100))).
  - vm_compute. reflexivity.
  - vm_compute. reflexivity.
Defined.

(** X11.  [removeObjectAt] faults on an index outside the collection.
    On a valid index it takes out the entity at that place, the others
    keeping their order, and clears the owner of that entity. *)
Theorem removeObjectAt_bounds h this index g :
  layers h !! this = Some (ObjectGroupLayer g) →
  (¬ (0 ≤ index < size (mObjects g)) → removeObjectAt h this index = Fault) ∧
  (∀ object o,
     0 ≤ index → mObjects g !! Z.to_nat index = Some object →
     objects h !! object = Some o →
     removeObjectAt h this index =
       Done (mkHeap
               (<[object := mkMapObject (mName o) (mId o) None]> (objects h))
               (<[this := ObjectGroupLayer
                            (withObjects g (take (Z.to_nat index) (mObjects g)
                                            ++ drop (S (Z.to_nat index))
                                                 (mObjects g)))]>
                  (layers h))
               (maps h))).
Proof.
  intros Hg. unfold removeObjectAt, getGroup, QList_takeAt. rewrite Hg. simpl.
  split.
  - intros Hout. unfold vget, inRange, size in *.
    destruct (Z.leb_spec 0 index); [|done].
    destruct (Z.ltb_spec index (Z.of_nat (length (mObjects g)))); [lia|done].
  - intros object o Hidx Hobj Ho.
    assert (vget (mObjects g) index = Done object) as ->.
    { apply vget_Done. split; [|done].
      apply lookup_lt_Some in Hobj. unfold size. lia. }
    simpl. unfold setObjectGroup, getObject, putGroup. simpl. rewrite Ho. simpl.
    by rewrite delete_take_drop.
Qed.

Lemma removeObjectAt_bounds_witness :
  (¬ (0 ≤ 1 < size [1; 2]) → removeObjectAt exampleHeap 100 1 = Fault) ∧
  (∀ object o,
     0 ≤ 1 → [1; 2] !! Z.to_nat 1 = Some object →
     objects exampleHeap !! object = Some o →
     removeObjectAt exampleHeap 100 1 =
       Done (mkHeap
               (<[object := mkMapObject (mName o) (mId o) None]>
                  (objects exampleHeap))
               (<[100 := ObjectGroupLayer
                           (withObjects
                              (mkObjectGroup "A" 0 0 10 10 None [1; 2]
                                             (Some 255) IndexOrder)
                              (take (Z.to_nat 1) [1; 2]
                               ++ drop (S (Z.to_nat 1)) [1; 2]))]>
                  (layers exampleHeap))
               (maps exampleHeap))).
Proof.
  apply (removeObjectAt_bounds exampleHeap 100 1
           (mkObjectGroup "A" 0 0 10 10 None [1; 2] (Some 255) IndexOrder)).
  vm_compute. reflexivity.
Defined.

Lemma withObjects_withObjects g l1 l2 :
  withObjects (withObjects g l1) l2 = withObjects g l2.
Proof. done. Qed.

(** X12.  Removing an entity right after adding it gives the collection
    back as it was: [removeObject] returns the old size, the layers are
    those from before [addObject], the entity has no owner, and no other
    entity is touched. *)
Theorem removeObject_undoes_addObject h this object g o :
  layers h !! this = Some (ObjectGroupLayer g) →
  objects h !! object = Some o →
  object ∉ mObjects g →
  (∀ m, mMap g = Some m → mId o = 0 → is_Some (maps h !! m)) →
  ∃ h1 h2,
    addObject h this object = Done h1 ∧
    removeObject h1 this object = Done (h2, size (mObjects g)) ∧
    layers h2 = layers h ∧
    mObjectGroup <$> objects h2 !! object = Some None ∧
    (∀ p, p ≠ object → objects h2 !! p = objects h !! p).
Proof.
  intros Hg Ho Hnot Hlive.
  assert (∃ id maps', addObject h this object =
            Done (mkHeap
                    (<[object := mkMapObject (mName o) id (Some this)]> (objects h))
                    (<[this := ObjectGroupLayer
                                 (withObjects g (mObjects g ++ [object]))]>
                       (layers h))
                    maps')) as (id & maps' & Hadd).
  { destruct (mMap g) as [m|] eqn:Hm;
      [destruct (decide (mId o = 0)) as [Hid|Hid]|].
    - destruct (Hlive m eq_refl Hid) as [d Hd].
      eexists _, _. by apply (addObject_takes_id h this object g o m d).
    - eexists _, _. apply addObject_keeps_id; [done..|by right].
    - eexists _, _. apply addObject_keeps_id; [done..|by left]. }
  eexists _, _. split; [exact Hadd|].
  rewrite (removeObject_run _ this object
             (withObjects g (mObjects g ++ [object]))
             (mkMapObject (mName o) id (Some this)) (length (mObjects g))).
  - simpl. split_and!.
    + done.
    + simpl. rewrite (insert_insert_eq (layers h)), withObjects_withObjects.
      replace (delete (length (mObjects g)) (mObjects g ++ [object]))
        with (mObjects g).
      { rewrite withObjects_id. by apply insert_id. }
      rewrite delete_take_drop, take_app_length.
      rewrite drop_ge by (rewrite length_app; simpl; lia).
      by rewrite app_nil_r.
    + cbn. by rewrite lookup_insert_eq.
    + intros p Hp. cbn. by rewrite !lookup_insert_ne.
  - simpl. by rewrite lookup_insert_eq.
  - simpl. by rewrite lookup_insert_eq.
  - simpl. by apply list_lookup_middle.
  - simpl. by rewrite take_app_length.
Qed.

Lemma removeObject_undoes_addObject_witness :
  ∃ h1 h2,
    addObject exampleHeap 100 3 = Done h1 ∧
    removeObject h1 100 3 = Done (h2, size [1; 2]) ∧
    layers h2 = layers exampleHeap ∧
    mObjectGroup <$> objects h2 !! 3 = Some None ∧
    (∀ p, p ≠ 3 → objects h2 !! p = objects exampleHeap !! p).
Proof.
  apply (removeObject_undoes_addObject exampleHeap 100 3
           (mkObjectGroup "A" 0 0 10 10 None [1; 2] (Some 255) IndexOrder)
           (mkMapObject "c" 0 None)).
  - vm_compute. reflexivity.
  - vm_compute. reflexivity.
  - apply (bool_decide_unpack _). vm_compute. exact I.
  - simpl. discriminate.
Defined.

(** The end of [addObject] and [insertObject]: the back-reference and
    the identity. *)
Lemma take_ownership h this object g o :
  layers h !! this = Some (ObjectGroupLayer g) →
  objects h !! object = Some o →
  (∀ m, mMap g = Some m → mId o = 0 → is_Some (maps h !! m)) →
  ∃ h',
    (h1 ← setObjectGroup h object (Some this); assignId h1 this object)
    = Done h' ∧
    layers h' = layers h ∧
    mObjectGroup <$> objects h' !! object = Some (Some this).
Proof.
  intros Hg Ho Hlive.
  unfold setObjectGroup, getObject. rewrite Ho. simpl.
  unfold assignId, getGroup, putObject. simpl. rewrite Hg. simpl.
  destruct (mMap g) as [m|] eqn:Hm.
  - unfold getObject. simpl. rewrite lookup_insert_eq. simpl.
    destruct (Z.eqb_spec (mId o) 0) as [Hid|Hid].
    + destruct (Hlive m eq_refl Hid) as [d Hd].
      unfold takeNextObjectId. simpl. rewrite Hd. simpl.
      unfold setId, getObject. simpl. rewrite lookup_insert_eq. simpl.
      eexists. split; [done|]. simpl. by rewrite lookup_insert_eq.
    + eexists. split; [done|]. simpl. by rewrite lookup_insert_eq.
  - eexists. split; [done|]. simpl. by rewrite lookup_insert_eq.
Qed.

(** X13.  Into a collection of at most one entity [insertObject]
    returns: the collection then holds the old entities and the new one,
    in name order whatever the index was, and owns the new entity. *)
Theorem insertObject_up_to_two fuel h this index object g o :
  layers h !! this = Some (ObjectGroupLayer g) →
  (length (mObjects g) ≤ 1)%nat →
  0 ≤ index ≤ size (mObjects g) →
  objects h !! object = Some o →
  (∀ m, mMap g = Some m → mId o = 0 → is_Some (maps h !! m)) →
  ∃ h' g',
    insertObject (S fuel) h this index object = Done h' ∧
    layers h' !! this = Some (ObjectGroupLayer g') ∧
    mObjects g' ≡ₚ object :: mObjects g ∧
    sortedByName (nameOf h) (mObjects g') ∧
    mObjectGroup <$> objects h' !! object = Some (Some this).
Proof.
  intros Hg Hlen Hidx Ho Hlive.
  unfold insertObject, getGroup. rewrite Hg. simpl.
  destruct (QList_insert_returns (mObjects g) index object) as [l1 Hl1].
  rewrite Hl1. apply QList_insert_Permutation in Hl1 as Hperm1.
  simpl.
  destruct (sort_small (nameOf h) fuel l1) as (l2 & -> & Hperm2 & Hsorted).
  { rewrite (Permutation_length Hperm1). simpl. lia. }
  simpl.
  destruct (take_ownership (putGroup h this (withObjects g l2)) this object
              (withObjects g l2) o) as (h' & -> & Hlayers & Hown).
  { simpl. by rewrite lookup_insert_eq. }
  { done. }
  { done. }
  exists h', (withObjects g l2). split_and!; [done| | |done|done].
  - rewrite Hlayers. simpl. by rewrite lookup_insert_eq.
  - simpl. by rewrite Hperm2.
Qed.

Lemma insertObject_up_to_two_witness :
  ∃ h' g',
    insertObject (S 0) exampleHeap 101 1 3 = Done h' ∧
    layers h' !! 101 = Some (ObjectGroupLayer g') ∧
    mObjects g' ≡ₚ 3 :: [4] ∧
    sortedByName (nameOf exampleHeap) (mObjects g') ∧
    mObjectGroup <$> objects h' !! 3 = Some (Some 101).
Proof.
  apply (insertObject_up_to_two 0 exampleHeap 101 1 3
           (mkObjectGroup "B" 0 0 10 10 None [4] None TopDownOrder)
           (mkMapObject "c" 0 None)).
  - vm_compute. reflexivity.
  - simpl. lia.
  - vm_compute. split; discriminate.
  - vm_compute. reflexivity.
  - simpl. discriminate.
Defined.

(** ** Moving blocks about *)

Lemma split_in_four (l : list ptr) a b c :
  0 ≤ a → a ≤ b → b ≤ c → c ≤ size l →
  ∃ A B M C,
    l = A ++ B ++ M ++ C ∧
    Z.of_nat (length A) = a ∧ Z.of_nat (length B) = b - a ∧
    Z.of_nat (length M) = c - b.
Proof.
  intros Ha Hab Hbc Hc.
  exists (slice l 0 a), (slice l a b), (slice l b c), (slice l c (size l)).
  rewrite <- !slice_app by lia. rewrite slice_all.
  rewrite !slice_length by lia. split_and!; [done|lia..].
Qed.

(** X14.  A move can be taken back: after a block was moved, moving it
    from where it now stands to where it stood gives the collection as it
    was. *)
Theorem moveObjects_there_and_back (mObjects : list ptr) from to count :
  0 ≤ count → 0 ≤ from → from + count ≤ size mObjects →
  0 ≤ to ≤ size mObjects → to ≤ from ∨ from + count ≤ to →
  ∃ moved,
    moveObjects mObjects from to count = Done moved ∧
    moveObjects moved (if decide (to ≤ from) then to else to - count)
                (if decide (to ≤ from) then from + count else from) count
    = Done mObjects.
Proof.
  intros Hc Hf Hfc Ht Hsep.
  destruct (decide (to ≤ from)) as [Hle|Hgt].
  - destruct (split_in_four mObjects to from (from + count))
      as (A & B & M & C & -> & HA & HB & HM); [lia..|].
    exists (A ++ M ++ B ++ C).
    assert (from = Z.of_nat (length (A ++ B))) as ->
      by (rewrite length_app; lia).
    assert (to = Z.of_nat (length A)) as -> by lia.
    assert (count = Z.of_nat (length M)) as -> by lia.
    split; [apply moveObjects_backward|].
    replace (Z.of_nat (length (A ++ B)) + Z.of_nat (length M))
      with (Z.of_nat (length (A ++ M ++ B)))
      by (rewrite !length_app; lia).
    apply moveObjects_forward.
  - destruct (split_in_four mObjects from (from + count) to)
      as (A & M & B & C & -> & HA & HM & HB); [lia..|].
    exists (A ++ B ++ M ++ C).
    assert (to = Z.of_nat (length (A ++ M ++ B))) as ->
      by (rewrite !length_app; lia).
    assert (from = Z.of_nat (length A)) as -> by lia.
    assert (count = Z.of_nat (length M)) as -> by lia.
    split; [apply moveObjects_forward|].
    replace (Z.of_nat (length (A ++ M ++ B)) - Z.of_nat (length M))
      with (Z.of_nat (length (A ++ B)))
      by (rewrite !length_app; lia).
    apply moveObjects_backward.
Qed.

Lemma moveObjects_there_and_back_witness :
  ∃ moved,
    moveObjects [1; 2; 3; 4; 5; 6] 1 5 2 = Done moved ∧
    moveObjects moved (if decide (5 ≤ 1) then 5 else 5 - 2)
                (if decide (5 ≤ 1) then 1 + 2 else 1) 2
    = Done [1; 2; 3; 4; 5; 6].
Proof.
  apply (moveObjects_there_and_back [1; 2; 3; 4; 5; 6] 1 5 2).
  - lia.
  - lia.
  - vm_compute. discriminate.
  - vm_compute. split; discriminate.
  - right. lia.
Defined.

Lemma moveObjects_loop_Permutation n (mObjects movingObjects : list ptr)
    to i out :
  0 ≤ i →
  moveObjects_loop n mObjects movingObjects to i = Done out →
  out ≡ₚ take n (drop (Z.to_nat i) movingObjects) ++ mObjects.
Proof.
  revert mObjects i. induction n as [|n IH]; intros mObjects i Hi; simpl.
  - by intros [= <-].
  - intros H. bind_inv H. bind_inv H.
    unfold QList_at in Hr. apply vget_Done in Hr as [_ Hr].
    apply QList_insert_Permutation in Hr0.
    apply IH in H; [|lia]. rewrite H, Hr0.
    rewrite (drop_S _ _ _ Hr). simpl.
    replace (Z.to_nat (i + 1)) with (S (Z.to_nat i)) by lia.
    by rewrite <- (Permutation_middle _ mObjects r).
Qed.

Lemma moveObjects_loop_returns n (mObjects movingObjects : list ptr) to i :
  0 ≤ i → i + Z.of_nat n ≤ size movingObjects →
  returns (moveObjects_loop n mObjects movingObjects to i).
Proof.
  revert mObjects i. induction n as [|n IH]; intros mObjects i Hi Hn; simpl.
  - by eexists.
  - destruct (vget_in_range movingObjects i) as [x Hx]; [lia|].
    unfold QList_at. rewrite Hx. simpl.
    destruct (QList_insert_returns mObjects (to + i) x) as [l Hl].
    rewrite Hl. simpl. apply IH; lia.
Qed.

(** [moveObjects] returns exactly when its two assertions hold and the
    block, if anything is to be moved, lies inside the list; the
    destination may be any number. *)
Lemma moveObjects_returns_iff (mObjects : list ptr) from to count :
  returns (moveObjects mObjects from to count) ↔
  0 ≤ count ∧ (to ≤ from ∨ from + count ≤ to) ∧
  (to = from ∨ to = from + count ∨ count = 0
   ∨ (0 ≤ from ∧ from + count ≤ size mObjects)).
Proof.
  unfold moveObjects.
  destruct (count >=? 0) eqn:Hc; simpl.
  2:{ rewrite Z.geb_leb in Hc. apply Z.leb_gt in Hc.
      split; [by intros [? ?]|lia]. }
  rewrite Z.geb_leb in Hc. apply Z.leb_le in Hc.
  destruct ((to <=? from) || (to >=? from + count)) eqn:Hsep; simpl.
  2:{ apply orb_false_iff in Hsep as [H1 H2].
      apply Z.leb_gt in H1. rewrite Z.geb_leb in H2. apply Z.leb_gt in H2.
      split; [by intros [? ?]|lia]. }
  apply orb_true_iff in Hsep. rewrite Z.geb_leb in Hsep.
  rewrite !Z.leb_le in Hsep.
  destruct ((to =? from) || (to =? from + count) || (count =? 0)) eqn:Hnoop.
  - rewrite !orb_true_iff, !Z.eqb_eq in Hnoop.
    split; [intros _; lia|intros _; by eexists].
  - rewrite !orb_false_iff, !Z.eqb_neq in Hnoop.
    unfold QList_erase.
    destruct ((0 <=? from) && (from <=? from + count)
              && (from + count <=? size mObjects)) eqn:Hrange; simpl.
    + rewrite !andb_true_iff, !Z.leb_le in Hrange.
      split; [intros _; lia|intros _].
      apply moveObjects_loop_returns; [lia|].
      unfold QList_mid, size in *. rewrite length_take, length_drop. lia.
    + split; [by intros [? ?]|]. intros (_ & _ & H).
      rewrite !andb_false_iff, !Z.leb_gt in Hrange. lia.
Qed.

(** X15.  Whatever its arguments, when [moveObjects] returns the
    collection holds the same entities as before: none is lost and none
    is held twice over. *)
Theorem moveObjects_keeps_the_entities (mObjects : list ptr) from to count out :
  moveObjects mObjects from to count = Done out → out ≡ₚ mObjects.
Proof.
  unfold moveObjects.
  destruct (count >=? 0) eqn:Hc; [|done]. simpl.
  destruct ((to <=? from) || (to >=? from + count)); [|done]. simpl.
  destruct ((to =? from) || (to =? from + count) || (count =? 0));
    [by intros [= <-]|].
  intros H. bind_inv H.
  unfold QList_erase in Hr.
  destruct ((0 <=? from) && (from <=? from + count)
            && (from + count <=? size mObjects)) eqn:Hrange; [|done].
  injection Hr as <-.
  apply andb_true_iff in Hrange as [Hrange H3].
  apply andb_true_iff in Hrange as [H1 H2].
  apply Z.leb_le in H1, H2, H3.
  apply moveObjects_loop_Permutation in H; [|done].
  rewrite H. unfold QList_mid. simpl. rewrite drop_0, take_take, Nat.min_id.
  rewrite (Permutation_app_comm (take (Z.to_nat from) mObjects)).
  rewrite (assoc_L (++)), (Permutation_app_comm _ (drop _ _)).
  rewrite <- (assoc_L (++)).
  rewrite <- (take_drop (Z.to_nat from) mObjects) at 4.
  rewrite (Permutation_app_comm (take (Z.to_nat from) mObjects)).
  rewrite (assoc_L (++)). f_equiv.
  rewrite <- (take_drop (Z.to_nat count) (drop (Z.to_nat from) mObjects)) at 2.
  rewrite drop_drop, Permutation_app_comm. do 2 f_equiv. lia.
Qed.

Lemma moveObjects_keeps_the_entities_witness :
  moveObjects [1; 2; 3; 4] 1 (-1) 3 = Done [3; 4; 2; 1] ∧
  [3; 4; 2; 1] ≡ₚ [1; 2; 3; 4].
Proof.
  split; [reflexivity|].
  apply (moveObjects_keeps_the_entities [1; 2; 3; 4] 1 (-1) 3).
  reflexivity.
Defined.

(** ** Cloning a collection *)

(** X16.  [clone] returns a collection at an address that was not live,
    with the name, the geometry, the colour and the draw order of the
    original and as many entities, each a copy that bears the name of the
    entity at the same place and is owned by the new collection: the
    order is kept, nothing is sorted.  The original collection and every
    entity that was live are as before. *)
Theorem clone_copies_in_order h this A :
  layers h !! this = Some (ObjectGroupLayer A) →
  (∀ p, p ∈ mObjects A → is_Some (objects h !! p)) →
  ∃ h' c C,
    clone h this = Done (h', c) ∧
    layers h !! c = None ∧
    layers h' !! c = Some (ObjectGroupLayer C) ∧
    mLayerName C = mLayerName A ∧
    (mX C, mY C, mWidth C, mHeight C) = (mX A, mY A, mWidth A, mHeight A) ∧
    mColor C = mColor A ∧ mDrawOrder C = mDrawOrder A ∧
    nameOf h' <$> mObjects C = nameOf h <$> mObjects A ∧
    Forall (λ p, mObjectGroup <$> objects h' !! p = Some (Some c)) (mObjects C) ∧
    layers h' !! this = Some (ObjectGroupLayer A) ∧
    (∀ p o, objects h !! p = Some o → objects h' !! p = Some o).
Proof.
  intros HA Hlive.
  destruct (clone_spec h this A HA Hlive)
    as (h' & c & cs & Hrun & Hc & Hlayers & _ & Hsub & _ & Hlen & Hcorr).
  eexists h', c, _. split; [done|]. split; [done|].
  rewrite Hlayers, lookup_insert_eq. split; [done|]. simpl.
  split_and!; try done.
  - apply list_eq. intros i. rewrite !list_lookup_fmap.
    destruct (mObjects A !! i) as [p|] eqn:Hp.
    + destruct (lookup_lt_is_Some_2 cs i) as [c' Hc'].
      { rewrite Hlen. by eapply lookup_lt_Some. }
      rewrite Hc'. simpl.
      destruct (Hcorr i p c' Hp Hc') as (o & Ho & Hoc).
      unfold nameOf. by rewrite Ho, Hoc.
    + rewrite (lookup_ge_None_2 cs i); [done|].
      rewrite Hlen. by apply lookup_ge_None.
  - apply Forall_forall. intros c' [i Hc']%list_elem_of_lookup.
    destruct (lookup_lt_is_Some_2 (mObjects A) i) as [p Hp].
    { rewrite <- Hlen. by eapply lookup_lt_Some. }
    destruct (Hcorr i p c' Hp Hc') as (o & Ho & Hoc). by rewrite Hoc.
  - rewrite lookup_insert_ne; [done|congruence].
  - intros p o Ho. by eapply lookup_weaken.
Qed.

Lemma clone_copies_in_order_witness :
  ∃ h' c C,
    clone exampleHeap 100 = Done (h', c) ∧
    layers exampleHeap !! c = None ∧
    layers h' !! c = Some (ObjectGroupLayer C) ∧
    mLayerName C = "A" ∧
    (mX C, mY C, mWidth C, mHeight C) = (0, 0, 10, 10) ∧
    mColor C = Some 255 ∧ mDrawOrder C = IndexOrder ∧
    nameOf h' <$> mObjects C = nameOf exampleHeap <$> [1; 2] ∧
    Forall (λ p, mObjectGroup <$> objects h' !! p = Some (Some c)) (mObjects C) ∧
    layers h' !! 100 =
      Some (ObjectGroupLayer
              (mkObjectGroup "A" 0 0 10 10 None [1; 2] (Some 255) IndexOrder)) ∧
    (∀ p o, objects exampleHeap !! p = Some o → objects h' !! p = Some o).
Proof.
  apply (clone_copies_in_order exampleHeap 100
           (mkObjectGroup "A" 0 0 10 10 None [1; 2] (Some 255) IndexOrder)).
  - vm_compute. reflexivity.
  - intros p Hp. simpl in Hp.
    repeat (apply elem_of_cons in Hp as [->|Hp]; [vm_compute; eauto|]).
    by apply elem_of_nil in Hp.
Defined.

(** ** The draw order codec *)

(** X17.  Reading back what [drawOrderToString] wrote gives the draw
    order it was written from, for each of the three orders; and writing
    what [drawOrderFromString] read gives the string back exactly for the
    three strings of the codec, any other string being read as the
    unknown order. *)
Theorem drawOrder_codec :
  (∀ drawOrder, drawOrderFromString (drawOrderToString drawOrder) = drawOrder) ∧
  (∀ s, drawOrderToString (drawOrderFromString s) = s ↔
        s = "unknown" ∨ s = "topdown" ∨ s = "index") ∧
  (∀ s, s ≠ "topdown" → s ≠ "index" → drawOrderFromString s = UnknownOrder).
Proof.
  split_and!.
  - by intros [].
  - intros s. unfold drawOrderFromString.
    destruct (String.eqb_spec s "topdown") as [->|H1];
      [split; [intros _; right; by left|done]|].
    destruct (String.eqb_spec s "index") as [->|H2];
      [split; [intros _; right; by right|done]|].
    simpl. split; [intros Hs; left; by rewrite <- Hs|].
    intros [Hs|[Hs|Hs]]; by subst s.
  - intros s H1 H2. unfold drawOrderFromString.
    destruct (String.eqb_spec s "topdown") as [->|_]; [done|].
    by destruct (String.eqb_spec s "index") as [->|_].
Qed.

(** ** Tileset references *)

Lemma usedTilesets_loop_spec (tilesetOf : ptr → ptr) (cells : gmap Z Cell)
    (l : list ptr) (S : gset Z) :
  (∀ p, p ∈ l → is_Some (cells !! p)) →
  ∃ S', usedTilesets_loop tilesetOf cells l S = Done S' ∧
        ∀ ts, ts ∈ S' ↔
              ts ∈ S ∨ ∃ p c, p ∈ l ∧ cells !! p = Some c ∧
                              showsTileset tilesetOf ts c.
Proof.
  revert S. induction l as [|p l IH]; intros S Hlive; simpl.
  - exists S. split; [done|]. intros ts. split; [by left|].
    intros [?|(p & c & Hp & _)]; [done|]. by apply elem_of_nil in Hp.
  - destruct (Hlive p) as [c Hc]; [by left|].
    unfold getCell. rewrite Hc. simpl.
    assert (∀ q, q ∈ l → is_Some (cells !! q)) as Hlive'
      by (intros q Hq; apply Hlive; by right).
    destruct (tile c) as [t|] eqn:Ht.
    + destruct (IH ({[tilesetOf t]} ∪ S) Hlive') as (S' & -> & HS').
      exists S'. split; [done|]. intros ts. rewrite HS'. split.
      * intros [[->%elem_of_singleton|?]%elem_of_union|(q & cq & Hq & Hcq & Hs)].
        -- right. exists p, c. split_and!; [by left|done|]. by exists t.
        -- by left.
        -- right. exists q, cq. split_and!; [by right|done..].
      * intros [?|(q & cq & [->|Hq]%elem_of_cons & Hcq & Hs)].
        -- left. apply elem_of_union. by right.
        -- left. apply elem_of_union. left. apply elem_of_singleton.
           destruct Hs as (t' & Ht' & <-). congruence.
        -- right. by exists q, cq.
    + destruct (IH S Hlive') as (S' & -> & HS').
      exists S'. split; [done|]. intros ts. rewrite HS'. split.
      * intros [?|(q & cq & Hq & Hcq & Hs)]; [by left|].
        right. exists q, cq. split_and!; [by right|done..].
      * intros [?|(q & cq & [->|Hq]%elem_of_cons & Hcq & Hs)]; [by left| |].
        -- destruct Hs as (t' & Ht' & _). congruence.
        -- right. by exists q, cq.
Qed.

Lemma referencesTileset_spec (tilesetOf : ptr → ptr) (cells : gmap Z Cell)
    (l : list ptr) tileset :
  (∀ p, p ∈ l → is_Some (cells !! p)) →
  ∃ b, referencesTileset tilesetOf cells l tileset = Done b ∧
       (b = true ↔ ∃ p c, p ∈ l ∧ cells !! p = Some c ∧
                          showsTileset tilesetOf tileset c).
Proof.
  induction l as [|p l IH]; intros Hlive; simpl.
  - exists false. split; [done|]. split; [done|].
    intros (p & c & Hp & _). by apply elem_of_nil in Hp.
  - destruct (Hlive p) as [c Hc]; [by left|].
    unfold getCell. rewrite Hc. simpl.
    destruct IH as (b & Hb & Hiff); [intros q Hq; apply Hlive; by right|].
    assert ((∃ q cq, q ∈ l ∧ cells !! q = Some cq ∧
                     showsTileset tilesetOf tileset cq) →
            ∃ q cq, q ∈ p :: l ∧ cells !! q = Some cq ∧
                    showsTileset tilesetOf tileset cq) as Hup.
    { intros (q & cq & Hq & Hcq & Hs). exists q, cq.
      split_and!; [by right|done..]. }
    destruct (tile c) as [t|] eqn:Ht.
    + destruct (Z.eqb_spec (tilesetOf t) tileset) as [Heq|Hne].
      * exists true. split; [done|]. split; [|done]. intros _.
        exists p, c. split_and!; [by left|done|]. by exists t.
      * exists b. split; [done|]. rewrite Hiff. split; [done|].
        intros (q & cq & [->|Hq]%elem_of_cons & Hcq & Hs).
        -- destruct Hs as (t' & Ht' & Hs). congruence.
        -- by exists q, cq.
    + exists b. split; [done|]. rewrite Hiff. split; [done|].
      intros (q & cq & [->|Hq]%elem_of_cons & Hcq & Hs).
      * destruct Hs as (t' & Ht' & _). congruence.
      * by exists q, cq.
Qed.

(** X18.  For a collection of live entities, [referencesTileset] says
    yes for a tileset exactly when the tileset is in the set that
    [usedTilesets] returns. *)
Theorem referencesTileset_iff_used (tilesetOf : ptr → ptr)
    (cells : gmap Z Cell) (mObjects : list ptr) tileset :
  (∀ p, p ∈ mObjects → is_Some (cells !! p)) →
  ∃ tilesets b,
    usedTilesets tilesetOf cells mObjects = Done tilesets ∧
    referencesTileset tilesetOf cells mObjects tileset = Done b ∧
    (b = true ↔ tileset ∈ tilesets).
Proof.
  intros Hlive.
  destruct (usedTilesets_loop_spec tilesetOf cells mObjects ∅ Hlive)
    as (S' & Hused & HS').
  destruct (referencesTileset_spec tilesetOf cells mObjects tileset Hlive)
    as (b & Href & Hb).
  exists S', b. split_and!; [done..|].
  rewrite Hb, HS'. split; [by right|].
  intros [Hin|?]; [|done]. by apply not_elem_of_empty in Hin.
Qed.

Lemma referencesTileset_iff_used_witness :
  ∃ tilesets b,
    usedTilesets exampleTilesetOf exampleCells [1; 2; 3] = Done tilesets ∧
    referencesTileset exampleTilesetOf exampleCells [1; 2; 3] 8 = Done b ∧
    (b = true ↔ 8 ∈ tilesets).
Proof.
  apply (referencesTileset_iff_used exampleTilesetOf exampleCells [1; 2; 3] 8).
  intros p Hp.
  repeat (apply elem_of_cons in Hp as [->|Hp]; [vm_compute; eauto|]).
  by apply elem_of_nil in Hp.
Defined.

(** X19.  Let the tiles that [newTileset] hands out belong to it, and
    let it differ from [oldTileset].  On a collection of live entities
    [replaceReferencesToTileset] returns, and afterwards the collection
    does not reference [oldTileset]: every entity of it that showed a
    tile of [oldTileset] shows what [newTileset] has under the identifier
    of that tile, with its flags kept, and every other cell is as it
    was. *)
Theorem replaceReferencesToTileset_retargets (tilesetOf : ptr → ptr)
    (idOf : ptr → Z) (tileAt : ptr → Z → option ptr) (mObjects : list ptr)
    oldTileset newTileset : ∀ cells : gmap Z Cell,
  oldTileset ≠ newTileset →
  (∀ id t, tileAt newTileset id = Some t → tilesetOf t = newTileset) →
  (∀ p, p ∈ mObjects → is_Some (cells !! p)) →
  ∃ cells',
    replaceReferencesToTileset tilesetOf idOf tileAt cells mObjects
                               oldTileset newTileset = Done cells' ∧
    referencesTileset tilesetOf cells' mObjects oldTileset = Done false ∧
    (∀ p c t, p ∈ mObjects → cells !! p = Some c →
       tile c = Some t → tilesetOf t = oldTileset →
       cells' !! p = Some (mkCell (tileAt newTileset (idOf t)) (cellFlags c))) ∧
    (∀ p c, cells !! p = Some c →
       ¬ (p ∈ mObjects ∧ showsTileset tilesetOf oldTileset c) →
       cells' !! p = Some c).
Proof.
  intros cells Hne HtileAt. revert cells.
  induction mObjects as [|p0 l IH]; intros cells Hlive; simpl.
  - exists cells. split_and!; [done..| |done].
    intros p c t Hp. by apply elem_of_nil in Hp.
  - destruct (Hlive p0) as [c0 Hc0]; [by left|].
    unfold getCell. rewrite Hc0. simpl.
    destruct (tile c0) as [t0|] eqn:Ht0;
      [destruct (Z.eqb_spec (tilesetOf t0) oldTileset) as [Hold|Hother]|].
    + set (c0' := mkCell (tileAt newTileset (idOf t0)) (cellFlags c0)).
      assert (¬ showsTileset tilesetOf oldTileset c0') as Hc0'.
      { intros (t & Ht & Hts). simpl in Ht. apply HtileAt in Ht. congruence. }
      destruct (IH (<[p0 := c0']> cells)) as (cells' & -> & Href & Hnew & Hsame).
      { intros q Hq. destruct (decide (q = p0)) as [->|Hq0].
        - rewrite lookup_insert_eq. by eexists.
        - rewrite lookup_insert_ne by done. apply Hlive. by right. }
      assert (cells' !! p0 = Some c0') as Hp0.
      { apply Hsame; [by rewrite lookup_insert_eq|]. by intros [_ ?]. }
      exists cells'. split; [done|]. split_and!.
      * rewrite Hp0. simpl.
        destruct (tileAt newTileset (idOf t0)) as [t|] eqn:Ht; [|done].
        apply HtileAt in Ht.
        by assert ((tilesetOf t =? oldTileset) = false) as -> by zbool.
      * intros p c t [->|Hp]%elem_of_cons Hc Ht Hts.
        -- by simplify_eq.
        -- destruct (decide (p = p0)) as [->|Hp0']; [by simplify_eq|].
           apply Hnew; [done| |done..]. by rewrite lookup_insert_ne.
      * intros p c Hc Hnot. destruct (decide (p = p0)) as [->|Hp0'].
        -- exfalso. apply Hnot. split; [by left|].
           assert (c = c0) as -> by congruence. by exists t0.
        -- apply Hsame; [by rewrite lookup_insert_ne|].
           intros [Hp Hs]. apply Hnot. split; [by right|done].
    + destruct (IH cells) as (cells' & -> & Href & Hnew & Hsame).
      { intros q Hq. apply Hlive. by right. }
      assert (cells' !! p0 = Some c0) as Hp0.
      { apply Hsame; [done|]. intros [_ (t & Ht & Hts)]. congruence. }
      exists cells'. split; [done|]. split_and!.
      * rewrite Hp0. simpl. rewrite Ht0.
        by assert ((tilesetOf t0 =? oldTileset) = false) as -> by zbool.
      * intros p c t [->|Hp]%elem_of_cons Hc Ht Hts; [congruence|].
        by eapply Hnew.
      * intros p c Hc Hnot. apply Hsame; [done|].
        intros [Hp Hs]. apply Hnot. split; [by right|done].
    + destruct (IH cells) as (cells' & -> & Href & Hnew & Hsame).
      { intros q Hq. apply Hlive. by right. }
      assert (cells' !! p0 = Some c0) as Hp0.
      { apply Hsame; [done|]. intros [_ (t & Ht & Hts)]. congruence. }
      exists cells'. split; [done|]. split_and!.
      * rewrite Hp0. simpl. by rewrite Ht0.
      * intros p c t [->|Hp]%elem_of_cons Hc Ht Hts; [congruence|].
        by eapply Hnew.
      * intros p c Hc Hnot. apply Hsame; [done|].
        intros [Hp Hs]. apply Hnot. split; [by right|done].
Qed.

Lemma replaceReferencesToTileset_retargets_witness :
  ∃ cells',
    replaceReferencesToTileset exampleTilesetOf exampleIdOf exampleTileAt
                               exampleCells [1; 2; 3] 7 9 = Done cells' ∧
    referencesTileset exampleTilesetOf cells' [1; 2; 3] 7 = Done false ∧
    (∀ p c t, p ∈ [1; 2; 3] → exampleCells !! p = Some c →
       tile c = Some t → exampleTilesetOf t = 7 →
       cells' !! p = Some (mkCell (exampleTileAt 9 (exampleIdOf t))
                                  (cellFlags c))) ∧
    (∀ p c, exampleCells !! p = Some c →
       ¬ (p ∈ [1; 2; 3] ∧ showsTileset exampleTilesetOf 7 c) →
       cells' !! p = Some c).
Proof.
  apply (replaceReferencesToTileset_retargets exampleTilesetOf exampleIdOf
           exampleTileAt [1; 2; 3] 7 9 exampleCells).
  - discriminate.
  - intros id t. unfold exampleTileAt, exampleTilesetOf.
    destruct (Z.leb_spec 0 id); [|done].
    destruct (Z.ltb_spec id 10); [|done]. simpl.
    intros [= <-]. symmetry. apply (Z.div_unique _ _ _ id); lia.
  - intros p Hp.
    repeat (apply elem_of_cons in Hp as [->|Hp]; [vm_compute; eauto|]).
    by apply elem_of_nil in Hp.
Defined.

(** X20.  When the collection does not reference [oldTileset],
    [replaceReferencesToTileset] returns the cells as they were. *)
Theorem replaceReferencesToTileset_without_reference (tilesetOf : ptr → ptr)
    (idOf : ptr → Z) (tileAt : ptr → Z → option ptr) (cells : gmap Z Cell)
    (mObjects : list ptr) oldTileset newTileset :
  referencesTileset tilesetOf cells mObjects oldTileset = Done false →
  replaceReferencesToTileset tilesetOf idOf tileAt cells mObjects
                             oldTileset newTileset = Done cells.
Proof.
  induction mObjects as [|p l IH]; simpl; [done|].
  intros H. bind_inv H. rewrite Hr. simpl.
  destruct (tile r) as [t|]; [|by apply IH].
  destruct (tilesetOf t =? oldTileset); [done|by apply IH].
Qed.

Lemma replaceReferencesToTileset_without_reference_witness :
  replaceReferencesToTileset exampleTilesetOf exampleIdOf exampleTileAt
                             exampleCells [1; 2; 3] 5 9 = Done exampleCells.
Proof.
  apply (replaceReferencesToTileset_without_reference exampleTilesetOf
           exampleIdOf exampleTileAt exampleCells [1; 2; 3] 5 9).
  vm_compute. reflexivity.
Defined.
